(** * Grant Ships: the budget, allocation and distribution ledger

    A shallow embedding of the request handlers of [src/server.js] that write
    the ledger,

      - [POST /ships]                      ([createShip]),
      - [POST /ships/:id/fund]             ([fund]),
      - [POST /ships/:id/apply]            ([apply]),
      - [POST /applications/:id/allocate]  ([allocate]),
      - [POST /ships/:id/distribute]       ([distribute]),

    over the four in-memory maps [ships], [applications], [allocations] and
    [distributions], of [GET /stats] ([stats]), which reads them, and of the
    whitelist middleware ([fetchWhitelist], [requireWhitelist]) with its
    cache.

    Conventions of the embedding.

    - A handler is a function from the request, the answers of its external
      collaborators (the uuid drawn, the chain's reply, the outcome of each
      transfer) and the store to the new store and the response.  A request
      is served from its first line to its last before the next one is
      looked at; what two distributions that overlap at an [await] do to each
      other is not described.
    - The amounts the server keeps as decimal strings of BigInts ([budget],
      [allocated], [distributed], [amount], ...) are kept as the integer they
      denote, in [Z]; BigInt's [/] is [Z.quot].
    - [formatETH] renders an amount, and raises on one that does not fit 512
      signed bits.  The text rendered is not kept, a response carries the
      amount in wei that was formatted.  The exception is kept in [apply],
      [allocate] and [distribute]; the log line of [fund] and the entries
      of the payout loop format amounts that stay in range.
    - A value of a request body is a string, a boolean, a safe integer,
      [null] or [undefined]; objects, arrays and the other numbers are not
      described.
    - [ethers.isAddress] and [ethers.parseEther] belong to a dependency; the
      handlers take them as parameters.  [Module Ethers] gives an instance
      used to run the handlers on concrete requests.
    - The clock ([Date.now], [startDate], [endDate], [createdAt],
      [distributedAt]) and the free-text fields [description], [criteria] and
      [links] are never read by the handlers above and are left out.  The
      [requireWhitelist] middleware runs before a handler and does not touch
      the store: it is modelled on its own, over its cache, and the handlers
      are what runs once it has called [next()]. *)

From Stdlib Require Import ZArith List String Ascii Bool Lia DecimalString.
Import ListNotations.
Local Open Scope string_scope.
Local Open Scope Z_scope.

(** ** JavaScript values found in a request body *)

(** A safe integer: at most [Number.MAX_SAFE_INTEGER], 2^53 - 1, in
    magnitude.  A double holds it exactly and [toString] prints it in plain
    decimal notation. *)
Record safe_integer : Type := mkSafeInteger {
  integer_value : Z;
  integer_safe : (Z.abs integer_value <=? 9007199254740991) = true
}.

(** Objects, arrays and the numbers that are not safe integers are not
    among these values. *)
Inductive jsval : Type :=
| JUndefined
| JNull
| JBool (b : bool)
| JNum (n : safe_integer)
| JStr (s : string).

(** [!!v] *)
Definition truthy (v : jsval) : bool :=
  match v with
  | JUndefined | JNull => false
  | JBool b => b
  | JNum n => negb (integer_value n =? 0)
  | JStr s => negb (s =? "")%string
  end.

(** [a || b] *)
Definition js_or (a b : jsval) : jsval := if truthy a then a else b.

(** [a === b] *)
Definition strict_eq (a b : jsval) : bool :=
  match a, b with
  | JUndefined, JUndefined => true
  | JNull, JNull => true
  | JBool x, JBool y => Bool.eqb x y
  | JNum x, JNum y => integer_value x =? integer_value y
  | JStr x, JStr y => (x =? y)%string
  | _, _ => false
  end.

(** [v.toString()]; [None] is the TypeError raised on [undefined] and
    [null]. *)
Definition toString (v : jsval) : option string :=
  match v with
  | JUndefined | JNull => None
  | JBool true => Some "true"
  | JBool false => Some "false"
  | JNum n => Some (NilZero.string_of_int (Z.to_int (integer_value n)))
  | JStr s => Some s
  end.

Definition lower_ascii (c : ascii) : ascii :=
  let n := nat_of_ascii c in
  if (Nat.leb 65 n && Nat.leb n 90)%bool then ascii_of_nat (n + 32) else c.

(** [s.toLowerCase()] of a string of ASCII characters, which is what an
    address is: the letters A to Z are lowered and nothing else changes.  A
    string is a sequence of bytes here, and on one that has a byte above 127
    this function says nothing of what JavaScript does. *)
Fixpoint toLowerCase (s : string) : string :=
  match s with
  | EmptyString => EmptyString
  | String c r => String (lower_ascii c) (toLowerCase r)
  end.

(** A string of ASCII characters. *)
Definition is_ascii (s : string) : bool :=
  forallb (fun c => Nat.ltb (nat_of_ascii c) 128) (list_ascii_of_string s).

(** The outcome of a method call that may raise. *)
Inductive outcome (A : Type) : Type :=
| Returned (a : A)
| Raised.
Arguments Returned {A} a.
Arguments Raised {A}.

(** [v.toLowerCase()]: a TypeError unless [v] is a string. *)
Definition call_toLowerCase (v : jsval) : outcome string :=
  match v with
  | JStr s => Returned (toLowerCase s)
  | _ => Raised
  end.

(** [v?.toLowerCase()]: [undefined] on a nullish [v], the lowered string on a
    string, a TypeError on anything else (the property is missing and the
    call is made all the same). *)
Definition opt_toLowerCase (v : jsval) : outcome jsval :=
  match v with
  | JUndefined | JNull => Returned JUndefined
  | JStr s => Returned (JStr (toLowerCase s))
  | _ => Raised
  end.

(** [formatETH(wei)]: [ethers.formatEther] raises on an amount that does not
    fit 512 signed bits; [parseFloat] and [toFixed] raise on nothing.
    [Returned wei] stands for the text rendered from [wei]. *)
Definition formatETH (wei : Z) : outcome Z :=
  if ((- 2 ^ 511 <=? wei) && (wei <? 2 ^ 511))%bool then Returned wei
  else Raised.
Arguments formatETH : simpl never.

(** Equality of two addresses up to the case of their letters. *)
Definition eq_ignore_case (a b : string) : Prop := toLowerCase a = toLowerCase b.

(** ** A JavaScript [Map] with string keys

    Entries are kept in insertion order, which is the order [values()]
    yields; [set] on a key already present replaces the value in place. *)
Module JsMap.

Definition t (V : Type) : Type := list (string * V).

Definition empty {V : Type} : t V := [].

Fixpoint get {V : Type} (k : string) (m : t V) : option V :=
  match m with
  | [] => None
  | (k', v) :: r => if (k =? k')%string then Some v else get k r
  end.

Fixpoint set {V : Type} (k : string) (v : V) (m : t V) : t V :=
  match m with
  | [] => [(k, v)]
  | (k', v') :: r =>
      if (k =? k')%string then (k, v) :: r else (k', v') :: set k v r
  end.

Definition values {V : Type} (m : t V) : list V := map snd m.

Definition keys {V : Type} (m : t V) : list string := map fst m.

End JsMap.

(** ** The ledger's records *)

(** [status] of a ship: 'open', 'closed', 'distributing', 'completed'. *)
Inductive ship_state : Type := Open | Closed | Distributing | Completed.

(** [status] of an application: 'pending', 'approved', 'rejected'. *)
Inductive application_state : Type := Pending | Approved | Rejected.

Record ship : Type := mkShip {
  ship_id : string;
  ship_name : jsval;
  ship_captain : string;
  budget : Z;
  allocated : Z;
  distributed : Z;
  status : ship_state
}.

Record application : Type := mkApplication {
  app_id : string;
  app_shipId : string;
  app_shipName : jsval;
  app_applicant : string;
  app_projectName : jsval;
  requestAmount : Z;
  app_status : application_state;
  app_allocation : Z
}.

Record allocation : Type := mkAllocation {
  alloc_id : string;
  alloc_shipId : string;
  alloc_applicationId : string;
  alloc_projectName : jsval;
  alloc_applicant : string;
  amount : Z;
  alloc_distributed : bool;
  alloc_txHash : option string
}.

(** One entry of a distribution's [payouts] array. *)
Record payout : Type := mkPayout {
  payout_allocationId : string;
  payout_projectName : jsval;
  payout_applicant : string;
  gross : Z;
  net : Z;
  payout_txHash : string
}.

Record distribution : Type := mkDistribution {
  dist_id : string;
  dist_shipId : string;
  dist_shipName : jsval;
  totalGross : Z;
  totalFee : Z;
  totalNet : Z;
  payouts : list payout
}.

(** The four maps of the server. *)
Record store : Type := mkStore {
  ships : JsMap.t ship;
  applications : JsMap.t application;
  allocations : JsMap.t allocation;
  distributions : JsMap.t distribution
}.

Definition empty_store : store :=
  mkStore JsMap.empty JsMap.empty JsMap.empty JsMap.empty.

Definition with_ships (m : JsMap.t ship) (st : store) : store :=
  mkStore m (applications st) (allocations st) (distributions st).

Definition with_applications (m : JsMap.t application) (st : store) : store :=
  mkStore (ships st) m (allocations st) (distributions st).

(** Field assignments on the stored objects. *)
Definition set_budget (b : Z) (s : ship) : ship :=
  mkShip (ship_id s) (ship_name s) (ship_captain s) b (allocated s)
         (distributed s) (status s).

Definition set_allocated (a : Z) (s : ship) : ship :=
  mkShip (ship_id s) (ship_name s) (ship_captain s) (budget s) a
         (distributed s) (status s).

Definition set_distributed (d : Z) (s : ship) : ship :=
  mkShip (ship_id s) (ship_name s) (ship_captain s) (budget s) (allocated s)
         d (status s).

Definition set_status (x : ship_state) (s : ship) : ship :=
  mkShip (ship_id s) (ship_name s) (ship_captain s) (budget s) (allocated s)
         (distributed s) x.

Definition set_app_status (x : application_state) (a : application) : application :=
  mkApplication (app_id a) (app_shipId a) (app_shipName a) (app_applicant a)
                (app_projectName a) (requestAmount a) x (app_allocation a).

Definition set_app_allocation (w : Z) (a : application) : application :=
  mkApplication (app_id a) (app_shipId a) (app_shipName a) (app_applicant a)
                (app_projectName a) (requestAmount a) (app_status a) w.

(** [alloc.distributed = true; alloc.txHash = tx.hash].  The time stamp
    [alloc.distributedAt], set between the two, is a clock value and is not
    kept, like [createdAt]. *)
Definition mark_distributed (hash : string) (a : allocation) : allocation :=
  mkAllocation (alloc_id a) (alloc_shipId a) (alloc_applicationId a)
               (alloc_projectName a) (alloc_applicant a) (amount a)
               true (Some hash).

Definition FEE_PERCENT : Z := 5.

(** ** Requests, collaborator replies and responses *)

(** Body of [POST /ships]. *)
Record ship_body : Type := mkShipBody {
  sb_name : jsval;
  sb_captain : jsval
}.

(** Body of [POST /ships/:id/apply]; the amount may come under three names. *)
Record apply_body : Type := mkApplyBody {
  ab_applicant : jsval;
  ab_projectName : jsval;
  ab_requestAmount : jsval;
  ab_requested_amount : jsval;
  ab_requestedAmount : jsval
}.

(** Body of [POST /applications/:id/allocate]. *)
Record allocate_body : Type := mkAllocateBody {
  captain : jsval;
  body_amount : jsval;
  approved : jsval
}.

(** What the provider knows of a transaction: [tx.to] (null for a contract
    creation) and [tx.value], an unsigned amount of wei. *)
Record transaction : Type := mkTransaction {
  tx_to : option string;
  tx_value : N
}.

(** The provider's answer to [getTransaction] and [getTransactionReceipt]:
    either call may raise; otherwise each yields an object or null, the
    receipt carrying its [status] (a number or null). *)
Inductive chain_reply : Type :=
| ChainRaised
| ChainReply (tx : option transaction) (receipt : option (option Z)).

(** One call of [sendTransaction] made by a distribution run, with the hash
    of the transaction when the call returned and [None] when it raised. *)
Record transfer : Type := mkTransfer {
  transfer_to : string;
  transfer_value : Z;
  transfer_hash : option string
}.

Inductive ships_response : Type :=
| Ships400_required            (* 400 'name and captain required' *)
| Ships400_captain             (* 400 'Invalid captain address' *)
| Ships201 (s : ship)          (* 201, the ship *)
| Ships500.                    (* uncaught TypeError *)

Inductive fund_response : Type :=
| Fund404                      (* 404 'Ship not found' *)
| Fund400_txHash               (* 400 'txHash required' *)
| Fund400_failed               (* 400 'Transaction not found or failed' *)
| Fund400_treasury             (* 400 'Not sent to treasury' *)
| Fund200 (s : ship) (funded : Z)
| Fund500.                     (* 500, the provider raised *)

Inductive apply_response : Type :=
| Apply404                     (* 404 'Ship not found' *)
| Apply400_closed              (* 400 'Ship is not accepting applications' *)
| Apply400_required            (* 400 'applicant and projectName required' *)
| Apply400_applicant           (* 400 'Invalid applicant address' *)
| Apply400_amount              (* 400 'Invalid requestAmount' *)
| Apply201 (a : application)
| Apply500.                    (* uncaught exception *)

Inductive allocate_response : Type :=
| Allocate404_application      (* 404 'Application not found' *)
| Allocate404_ship             (* 404 'Ship not found' *)
| Allocate403                  (* 403 'Only captain can allocate' *)
| Allocate200_rejected (a : application)
                               (* 200 'Application rejected' *)
| Allocate400_amount           (* 400 'Invalid amount' *)
| Allocate400_budget (remaining requested : Z)
                               (* 400 'Insufficient budget' *)
| Allocate201 (al : allocation) (a : application) (shipBudgetRemaining : Z)
| Allocate500.                 (* uncaught exception *)

Inductive distribute_response : Type :=
| Distribute404                (* 404 'Ship not found' *)
| Distribute500_wallet         (* 500 'Wallet not configured' *)
| Distribute400_nothing        (* 400 'No pending allocations to distribute' *)
| Distribute200 (d : distribution) (s : ship)
| DistributeRaised.            (* uncaught in the async handler: no answer *)

(** HTTP status of the answers to a decision. *)
Definition allocate_code (r : allocate_response) : Z :=
  match r with
  | Allocate404_application | Allocate404_ship => 404
  | Allocate403 => 403
  | Allocate200_rejected _ => 200
  | Allocate400_amount | Allocate400_budget _ _ => 400
  | Allocate201 _ _ _ => 201
  | Allocate500 => 500
  end.

(** ** The handlers *)

Section Handlers.

(** [ethers.isAddress], [ethers.parseEther] ([None] when it raises), the
    configured treasury address, and whether [getWallet()] yields a wallet
    (a private key is configured). *)
Variable isAddress : jsval -> bool.
Variable parseEther : string -> option Z.
Variable TREASURY_ADDRESS : string.
Variable wallet : bool.

(** [POST /ships] *)
Definition createShip (body : ship_body) (uuid : string) (st : store)
  : store * ships_response :=
  if (negb (truthy (sb_name body)) || negb (truthy (sb_captain body)))%bool
  then (st, Ships400_required)
  else if negb (isAddress (sb_captain body)) then (st, Ships400_captain)
  else
    match call_toLowerCase (sb_captain body) with
    | Raised => (st, Ships500)
    | Returned c =>
        let ship := mkShip uuid (sb_name body) c 0 0 0 Open in
        (with_ships (JsMap.set (ship_id ship) ship (ships st)) st,
         Ships201 ship)
    end.

(** [tx.to?.toLowerCase() !== TREASURY_ADDRESS.toLowerCase()] *)
Definition not_to_treasury (tx : transaction) : bool :=
  match tx_to tx with
  | None => true
  | Some a => negb (toLowerCase a =? toLowerCase TREASURY_ADDRESS)%string
  end.

(** [POST /ships/:id/fund].  [receipt.status !== 1] compares a number or
    [null] with 1.  The log line after the write formats [tx.value], a
    uint256 of the chain, and the budget, a sum of such values: both stay
    far below the 2^511 wei at which [formatETH] raises, and the line is
    taken to return. *)
Definition fund (id : string) (txHash : jsval) (chain : chain_reply) (st : store)
  : store * fund_response :=
  match JsMap.get id (ships st) with
  | None => (st, Fund404)
  | Some ship =>
      if negb (truthy txHash) then (st, Fund400_txHash)
      else
        match chain with
        | ChainRaised => (st, Fund500)
        | ChainReply (Some tx) (Some receipt_status) =>
            if negb (match receipt_status with
                     | Some n => n =? 1
                     | None => false
                     end)
            then (st, Fund400_failed)
            else if not_to_treasury tx then (st, Fund400_treasury)
            else
              let ship' := set_budget (budget ship + Z.of_N (tx_value tx)) ship in
              (with_ships (JsMap.set (ship_id ship') ship' (ships st)) st,
               Fund200 ship' (Z.of_N (tx_value tx)))
        | ChainReply _ _ => (st, Fund400_failed)
        end
  end.

(** The [try] block of the apply handler: [requestWei]. *)
Definition parse_request (requestAmount : jsval) : option Z :=
  if truthy requestAmount then
    match toString requestAmount with
    | Some s => parseEther s
    | None => None
    end
  else Some 0.

(** [POST /ships/:id/apply] *)
Definition apply (id : string) (body : apply_body) (uuid : string) (st : store)
  : store * apply_response :=
  let requestAmount :=
    js_or (js_or (ab_requestAmount body) (ab_requested_amount body))
          (ab_requestedAmount body) in
  match JsMap.get id (ships st) with
  | None => (st, Apply404)
  | Some ship =>
      match status ship with
      | Open =>
          if (negb (truthy (ab_applicant body))
              || negb (truthy (ab_projectName body)))%bool
          then (st, Apply400_required)
          else if negb (isAddress (ab_applicant body)) then (st, Apply400_applicant)
          else
            match parse_request requestAmount with
            | None => (st, Apply400_amount)
            | Some requestWei =>
                match call_toLowerCase (ab_applicant body) with
                | Raised => (st, Apply500)
                | Returned a =>
                    match formatETH requestWei with
                    | Raised => (st, Apply500)
                    | Returned _ =>
                        let application :=
                          mkApplication uuid (ship_id ship) (ship_name ship) a
                                        (ab_projectName body) requestWei
                                        Pending 0 in
                        (with_applications
                           (JsMap.set (app_id application) application
                                      (applications st)) st,
                         Apply201 application)
                    end
                end
            end
      | _ => (st, Apply400_closed)
      end
  end.

(** The [try] block of the allocate handler: [allocWei], [None] when
    anything inside raised. *)
Definition parse_amount (amount : jsval) : option Z :=
  match toString (js_or amount (JStr "0")) with
  | Some s => parseEther s
  | None => None
  end.

(** [POST /applications/:id/allocate].  The answer to an approval formats
    what is left of the budget after the three maps are written: when that
    raises, the answer is 500 and the writes stay. *)
Definition allocate (id : string) (body : allocate_body) (uuid : string)
  (st : store) : store * allocate_response :=
  match JsMap.get id (applications st) with
  | None => (st, Allocate404_application)
  | Some application =>
      match JsMap.get (app_shipId application) (ships st) with
      | None => (st, Allocate404_ship)
      | Some ship =>
          match opt_toLowerCase (captain body) with
          | Raised => (st, Allocate500)
          | Returned c =>
              if negb (strict_eq c (JStr (ship_captain ship)))
              then (st, Allocate403)
              else if strict_eq (approved body) (JBool false) then
                let application' := set_app_status Rejected application in
                (with_applications
                   (JsMap.set (app_id application') application'
                              (applications st)) st,
                 Allocate200_rejected application')
              else
                match parse_amount (body_amount body) with
                | None => (st, Allocate400_amount)
                | Some allocWei =>
                    let remaining := budget ship - allocated ship in
                    if allocWei >? remaining then
                      match formatETH remaining, formatETH allocWei with
                      | Returned r, Returned requested =>
                          (st, Allocate400_budget r requested)
                      | _, _ => (st, Allocate500)
                      end
                    else
                      match formatETH allocWei with
                      | Raised => (st, Allocate500)
                      | Returned _ =>
                          let allocation :=
                            mkAllocation uuid (ship_id ship)
                                         (app_id application)
                                         (app_projectName application)
                                         (app_applicant application)
                                         allocWei false None in
                          let application' :=
                            set_app_allocation allocWei
                              (set_app_status Approved application) in
                          let ship' :=
                            set_allocated (allocated ship + allocWei) ship in
                          let st' :=
                            mkStore
                              (JsMap.set (ship_id ship') ship' (ships st))
                              (JsMap.set (app_id application') application'
                                         (applications st))
                              (JsMap.set (alloc_id allocation) allocation
                                         (allocations st))
                              (distributions st) in
                          match formatETH (remaining - allocWei) with
                          | Raised => (st', Allocate500)
                          | Returned rest =>
                              (st', Allocate201 allocation application' rest)
                          end
                      end
                end
          end
      end
  end.

(** The filter of the distribute handler:
    [a.shipId === ship.id && !a.distributed && BigInt(a.amount) > 0n]. *)
Definition is_pending (ship : ship) (a : allocation) : bool :=
  ((alloc_shipId a =? ship_id ship)%string
   && negb (alloc_distributed a)
   && (amount a >? 0))%bool.

Definition pendingAllocations (ship : ship) (st : store) : list allocation :=
  filter (is_pending ship) (JsMap.values (allocations st)).

(** [pendingAllocations.reduce((sum, a) => sum + BigInt(a.amount), 0n)] *)
Definition totalToDistribute (pending : list allocation) : Z :=
  fold_left (fun sum a => sum + amount a) pending 0.

(** [(totalToDistribute * FEE_PERCENT) / 100n] *)
Definition fee (total : Z) : Z := Z.quot (total * FEE_PERCENT) 100.

Definition netTotal (total : Z) : Z := total - fee total.

(** [(BigInt(alloc.amount) * 95n) / 100n], the 5% fee per allocation. *)
Definition netAmount (alloc : allocation) : Z := Z.quot (amount alloc * 95) 100.

(** What the payout loop has built so far: the allocations map, the
    [payouts] array and the calls made to the wallet. *)
Record run : Type := mkRun {
  run_allocations : JsMap.t allocation;
  run_payouts : list payout;
  run_transfers : list transfer
}.

(** The [for (const alloc of pendingAllocations)] loop.  [send i] is the
    outcome of the [i]-th call of [sendTransaction] of this request: the
    hash of the transaction, or [None] when the call raised, which the
    [catch] only logs.  The amounts formatted for the [payouts] entry are
    the allocation's amount, which was formatted when the allocation was
    made, and 95% of it. *)
Fixpoint pay (send : nat -> option string) (i : nat)
  (pending : list allocation) (r : run) : run :=
  match pending with
  | [] => r
  | alloc :: rest =>
      let value := netAmount alloc in
      match send i with
      | Some hash =>
          let alloc' := mark_distributed hash alloc in
          pay send (S i) rest
              (mkRun
                 (JsMap.set (alloc_id alloc') alloc' (run_allocations r))
                 (run_payouts r ++
                    [mkPayout (alloc_id alloc') (alloc_projectName alloc')
                              (alloc_applicant alloc') (amount alloc') value hash])
                 (run_transfers r ++
                    [mkTransfer (alloc_applicant alloc) value (Some hash)]))
      | None =>
          pay send (S i) rest
              (mkRun (run_allocations r) (run_payouts r)
                     (run_transfers r ++
                        [mkTransfer (alloc_applicant alloc) value None]))
      end
  end.

(** [POST /ships/:id/distribute]: the new store, the response, and the calls
    made to the wallet.  After the loop and the write of the ship, the
    record of the distribution formats the three totals and the answer
    formats the ship's three amounts; when one of these raises, the handler
    ends there, with what it wrote until then and without an answer. *)
Definition distribute (id : string) (send : nat -> option string)
  (uuid : string) (st : store) : store * distribute_response * list transfer :=
  match JsMap.get id (ships st) with
  | None => (st, Distribute404, [])
  | Some ship =>
      if negb wallet then (st, Distribute500_wallet, [])
      else
        let pending := pendingAllocations ship st in
        match pending with
        | [] => (st, Distribute400_nothing, [])
        | _ :: _ =>
            let total := totalToDistribute pending in
            let r := pay send 0 pending (mkRun (allocations st) [] []) in
            let ship1 :=
              set_distributed (distributed ship + netTotal total) ship in
            let ship2 :=
              set_status (if distributed ship1 >=? allocated ship1
                          then Completed else Distributing) ship1 in
            let paid_out :=
              mkStore (JsMap.set (ship_id ship2) ship2 (ships st))
                      (applications st) (run_allocations r)
                      (distributions st) in
            match formatETH total, formatETH (fee total),
                  formatETH (netTotal total) with
            | Returned _, Returned _, Returned _ =>
                let distribution :=
                  mkDistribution uuid (ship_id ship2) (ship_name ship2)
                                 total (fee total) (netTotal total)
                                 (run_payouts r) in
                let recorded :=
                  mkStore (JsMap.set (ship_id ship2) ship2 (ships st))
                          (applications st) (run_allocations r)
                          (JsMap.set (dist_id distribution) distribution
                                     (distributions st)) in
                match formatETH (budget ship2), formatETH (allocated ship2),
                      formatETH (distributed ship2) with
                | Returned _, Returned _, Returned _ =>
                    (recorded, Distribute200 distribution ship2,
                     run_transfers r)
                | _, _, _ => (recorded, DistributeRaised, run_transfers r)
                end
            | _, _, _ => (paid_out, DistributeRaised, run_transfers r)
            end
        end
  end.

(** The write made by [GET /ships]: an open ship whose [endDate] has passed
    is closed, in place.  [expired s] stands for [now > s.endDate]. *)
Definition closeExpired (expired : ship -> bool) (st : store) : store :=
  with_ships
    (map (fun kv =>
            (fst kv,
             match status (snd kv) with
             | Open => if expired (snd kv) then set_status Closed (snd kv)
                       else snd kv
             | _ => snd kv
             end))
         (ships st))
    st.

(** ** Runs of the server *)

(** One request served. *)
Inductive step : store -> store -> Prop :=
| step_createShip body uuid st :
    step st (fst (createShip body uuid st))
| step_listShips expired st :
    step st (closeExpired expired st)
| step_fund id txHash chain st :
    step st (fst (fund id txHash chain st))
| step_apply id body uuid st :
    step st (fst (apply id body uuid st))
| step_allocate id body uuid st :
    step st (fst (allocate id body uuid st))
| step_distribute id send uuid st :
    step st (fst (fst (distribute id send uuid st))).

(** The stores the server can be in, starting from its four empty maps. *)
Inductive reachable : store -> Prop :=
| reachable_start : reachable empty_store
| reachable_step st st' : reachable st -> step st st' -> reachable st'.

End Handlers.


(** ** An instance of the two [ethers] functions

    [parseEther] follows the library's decimal parser at 18 decimals: an
    optional minus sign, digits, an optional point, digits, with at least
    one digit in all; fractional digits beyond the 18th must be zeros; the
    result is the signed number of wei, which must fit 512 signed bits.
    [isAddress] accepts the plain hexadecimal form, 40 hexadecimal digits
    with an optional [0x] in front and letters of a single case; the
    mixed-case form, which the library accepts only with a valid checksum,
    and the ICAP form are refused here. *)
Module Ethers.

Definition is_digit (c : ascii) : bool :=
  let n := nat_of_ascii c in (Nat.leb 48 n && Nat.leb n 57)%bool.

Definition digit_value (c : ascii) : Z := Z.of_nat (nat_of_ascii c) - 48.

Fixpoint span_digits (s : string) : list ascii * string :=
  match s with
  | String c r =>
      if is_digit c then let (ds, t) := span_digits r in (c :: ds, t)
      else ([], s)
  | EmptyString => ([], s)
  end.

Definition number_of (ds : list ascii) : Z :=
  fold_left (fun n c => 10 * n + digit_value c) ds 0.

Definition all_zero (ds : list ascii) : bool :=
  forallb (fun c => Ascii.eqb c "0"%char) ds.

(** [decimal] padded with zeros, or cut, to 18 digits. *)
Definition pad18 (ds : list ascii) : list ascii :=
  firstn 18 (ds ++ repeat "0"%char 18)%list.

Definition parseEther (s : string) : option Z :=
  let (negative, body) :=
    match s with
    | String "-"%char r => (true, r)
    | _ => (false, s)
    end in
  let (whole, t) := span_digits body in
  let t' := match t with String "."%char r => r | _ => t end in
  let (decimal, rest) := span_digits t' in
  match rest with
  | EmptyString =>
      if (Nat.eqb (List.length whole + List.length decimal) 0
          || negb (all_zero (skipn 18 decimal)))%bool
      then None
      else
        let magnitude := number_of (whole ++ pad18 decimal)%list in
        let value := if negative then - magnitude else magnitude in
        if ((- 2 ^ 511 <=? value) && (value <? 2 ^ 511))%bool
        then Some value else None
  | _ => None
  end.

Definition is_hex_lower (c : ascii) : bool :=
  let n := nat_of_ascii c in
  (is_digit c || (Nat.leb 97 n && Nat.leb n 102))%bool.

Definition is_hex_upper (c : ascii) : bool :=
  let n := nat_of_ascii c in
  (is_digit c || (Nat.leb 65 n && Nat.leb n 70))%bool.

Definition isAddress (v : jsval) : bool :=
  match v with
  | JStr s =>
      let digits :=
        match s with
        | String "0"%char (String "x"%char r) => r
        | _ => s
        end in
      let cs := list_ascii_of_string digits in
      (Nat.eqb (List.length cs) 40
       && (forallb is_hex_lower cs || forallb is_hex_upper cs))%bool
  | _ => false
  end.

End Ethers.

(** ** What the claims speak of *)

(** The spec's budget order on one round. *)
Definition budget_order (s : ship) : Prop :=
  0 <= distributed s /\ distributed s <= allocated s /\ allocated s <= budget s.

(** The part of it every request keeps. *)
Definition budget_bounds (s : ship) : Prop :=
  0 <= distributed s /\ allocated s <= budget s.

(** A captain is stored in lower case. *)
Definition captain_normalized (s : ship) : Prop :=
  toLowerCase (ship_captain s) = ship_captain s.

Definition all_ships (P : ship -> Prop) (st : store) : Prop :=
  forall s, In s (JsMap.values (ships st)) -> P s.

(** Every stored object sits under its own [id], once. *)
Definition keyed {V : Type} (id_of : V -> string) (m : JsMap.t V) : Prop :=
  Forall (fun kv => id_of (snd kv) = fst kv) m /\ NoDup (JsMap.keys m).

Definition well_keyed (st : store) : Prop :=
  keyed ship_id (ships st) /\ keyed app_id (applications st)
  /\ keyed alloc_id (allocations st).

(** The caller of a decision is the ship's captain:
    [captain?.toLowerCase() !== ship.captain] is false. *)
Definition is_captain (body : allocate_body) (s : ship) : Prop :=
  opt_toLowerCase (captain body) = Returned (JStr (ship_captain s)).

(** The selected allocations of a run, each with the outcome of its
    transfer, the first one being call number [i]. *)
Fixpoint attempts (send : nat -> option string) (i : nat)
  (pending : list allocation) : list (allocation * option string) :=
  match pending with
  | [] => []
  | a :: rest => (a, send i) :: attempts send (S i) rest
  end.

Definition transfer_of (x : allocation * option string) : transfer :=
  mkTransfer (alloc_applicant (fst x)) (netAmount (fst x)) (snd x).

(** The entry of [payouts] an attempt leaves: one when it succeeded, none
    when it failed. *)
Definition payout_of (x : allocation * option string) : list payout :=
  match snd x with
  | Some hash =>
      [mkPayout (alloc_id (fst x)) (alloc_projectName (fst x))
                (alloc_applicant (fst x)) (amount (fst x))
                (netAmount (fst x)) hash]
  | None => []
  end.

(** The net amounts of the payouts of a run that succeeded, summed. *)
Definition paid_net (l : list (allocation * option string)) : Z :=
  fold_right (fun x sum =>
                match snd x with
                | Some _ => netAmount (fst x) + sum
                | None => sum
                end) 0 l.

(** The net amounts recorded in a [payouts] array, summed. *)
Definition sum_net (l : list payout) : Z :=
  fold_right (fun p sum => net p + sum) 0 l.

(** The hash under which the allocation [k] was paid by a run, if it was. *)
Fixpoint paid_hash (l : list (allocation * option string)) (k : string)
  : option string :=
  match l with
  | [] => None
  | (a, o) :: rest =>
      if (alloc_id a =? k)%string then o else paid_hash rest k
  end.

(** What a run leaves of an allocation: marked when its transfer went
    through, untouched otherwise. *)
Definition settle (l : list (allocation * option string)) (x : allocation)
  : allocation :=
  match paid_hash l (alloc_id x) with
  | Some hash => mark_distributed hash x
  | None => x
  end.

(** ** A small run of the server, used to evaluate the handlers *)
Module Scenario.

Definition treasury : string := "0xccD7200024A8B5708d381168ec2dB0DC587af83F".

Definition captain_address : string :=
  "0xABCDEFABCDEFABCDEFABCDEFABCDEFABCDEFABCD".

Definition applicant_address : string :=
  "0x2222222222222222222222222222222222222222".

(** A ship is created ... *)
Definition created : store :=
  fst (createShip Ethers.isAddress
         (mkShipBody (JStr "round") (JStr captain_address)) "ship-1"
         empty_store).

(** ... credited with 2 ether sent to the treasury ... *)
Definition funded : store :=
  fst (fund treasury "ship-1" (JStr "0xfeed")
         (ChainReply
            (Some (mkTransaction (Some treasury) 2000000000000000000%N))
            (Some (Some 1)))
         created).

(** ... and receives one application. *)
Definition applied : store :=
  fst (apply Ethers.isAddress Ethers.parseEther "ship-1"
         (mkApplyBody (JStr applicant_address) (JStr "project")
                      JUndefined JUndefined JUndefined)
         "app-1" funded).

(** A decision of the captain, in upper case as typed. *)
Definition decision (amount approved : jsval) : allocate_body :=
  mkAllocateBody (JStr captain_address) amount approved.

(** The captain approves 1 ether. *)
Definition approved_once : store :=
  fst (allocate Ethers.parseEther "app-1"
         (decision (JStr "1") (JBool true)) "alloc-1" applied).

(** The captain approves an amount of minus 1 ether instead. *)
Definition approved_negative : store :=
  fst (allocate Ethers.parseEther "app-1"
         (decision (JStr "-1") (JBool true)) "alloc-1" applied).

(** The captain approves 1,000,000 wei instead. *)
Definition approved_million : store :=
  fst (allocate Ethers.parseEther "app-1"
         (decision (JStr "0.000000000001") (JBool true)) "alloc-1" applied).

(** The captain approves 4 wei instead. *)
Definition approved_four : store :=
  fst (allocate Ethers.parseEther "app-1"
         (decision (JStr "0.000000000000000004") (JBool true)) "alloc-1"
         applied).



(** A wallet whose every transfer fails, and one whose every transfer
    goes through. *)
Definition failing : nat -> option string := fun _ => None.

Definition paying : nat -> option string := fun _ => Some "0xhash".

(** After [approved_once], a distribution in which the transfer fails. *)
Definition failed_once : store :=
  fst (fst (distribute true "ship-1" failing "dist-1" approved_once)).

Definition failed_twice : store :=
  fst (fst (distribute true "ship-1" failing "dist-2" failed_once)).

(** After [approved_once], a distribution in which the transfer goes
    through. *)
Definition paid_once : store :=
  fst (fst (distribute true "ship-1" paying "dist-1" approved_once)).

(** The objects these stores hold. *)
Definition ship_funded : ship :=
  mkShip "ship-1" (JStr "round") "0xabcdefabcdefabcdefabcdefabcdefabcdefabcd"
         2000000000000000000 0 0 Open.

Definition ship_once : ship := set_allocated 1000000000000000000 ship_funded.

Definition application_pending : application :=
  mkApplication "app-1" "ship-1" (JStr "round") applicant_address
                (JStr "project") 0 Pending 0.

Definition application_approved : application :=
  set_app_allocation 1000000000000000000
    (set_app_status Approved application_pending).

Definition allocation_once : allocation :=
  mkAllocation "alloc-1" "ship-1" "app-1" (JStr "project") applicant_address
               1000000000000000000 false None.

Definition ship_four : ship := set_allocated 4 ship_funded.

Definition allocation_million : allocation :=
  mkAllocation "alloc-1" "ship-1" "app-1" (JStr "project") applicant_address
               1000000 false None.

End Scenario.

(** ** Further parts of the server *)

(** HTTP status of the answers of the other handlers. *)
Definition ships_code (r : ships_response) : Z :=
  match r with
  | Ships400_required | Ships400_captain => 400
  | Ships201 _ => 201
  | Ships500 => 500
  end.

Definition fund_code (r : fund_response) : Z :=
  match r with
  | Fund404 => 404
  | Fund400_txHash | Fund400_failed | Fund400_treasury => 400
  | Fund200 _ _ => 200
  | Fund500 => 500
  end.

Definition apply_code (r : apply_response) : Z :=
  match r with
  | Apply404 => 404
  | Apply400_closed | Apply400_required | Apply400_applicant
  | Apply400_amount => 400
  | Apply201 _ => 201
  | Apply500 => 500
  end.

(** The status of a distribution's answer, when one is sent. *)
Definition distribute_code (r : distribute_response) : option Z :=
  match r with
  | Distribute404 => Some 404
  | Distribute500_wallet => Some 500
  | Distribute400_nothing => Some 400
  | Distribute200 _ _ => Some 200
  | DistributeRaised => None
  end.

(** One request served that creates no ship under the id [k]. *)
Inductive step_keeping (isAddress : jsval -> bool)
  (parseEther : string -> option Z) (TREASURY_ADDRESS : string)
  (wallet : bool) (k : string) : store -> store -> Prop :=
| keeping_createShip body uuid st :
    uuid <> k ->
    step_keeping isAddress parseEther TREASURY_ADDRESS wallet k
                 st (fst (createShip isAddress body uuid st))
| keeping_listShips expired st :
    step_keeping isAddress parseEther TREASURY_ADDRESS wallet k
                 st (closeExpired expired st)
| keeping_fund id txHash chain st :
    step_keeping isAddress parseEther TREASURY_ADDRESS wallet k
                 st (fst (fund TREASURY_ADDRESS id txHash chain st))
| keeping_apply id body uuid st :
    step_keeping isAddress parseEther TREASURY_ADDRESS wallet k
                 st (fst (apply isAddress parseEther id body uuid st))
| keeping_allocate id body uuid st :
    step_keeping isAddress parseEther TREASURY_ADDRESS wallet k
                 st (fst (allocate parseEther id body uuid st))
| keeping_distribute id send uuid st :
    step_keeping isAddress parseEther TREASURY_ADDRESS wallet k
                 st (fst (fst (distribute wallet id send uuid st))).

(** The stores that come after [st] by such requests, [st] included. *)
Inductive later (isAddress : jsval -> bool)
  (parseEther : string -> option Z) (TREASURY_ADDRESS : string)
  (wallet : bool) (k : string) (st : store) : store -> Prop :=
| later_now : later isAddress parseEther TREASURY_ADDRESS wallet k st st
| later_step st1 st2 :
    later isAddress parseEther TREASURY_ADDRESS wallet k st st1 ->
    step_keeping isAddress parseEther TREASURY_ADDRESS wallet k st1 st2 ->
    later isAddress parseEther TREASURY_ADDRESS wallet k st st2.

(** The wei a run has sent: the values of the transfers that went through. *)
Definition sent_total (ts : list transfer) : Z :=
  fold_right (fun t sum =>
                match transfer_hash t with
                | Some _ => transfer_value t + sum
                | None => sum
                end) 0 ts.

(** No reference dangles: the ship of every application, the ship and the
    application of every allocation, and the ship of every distribution
    record are stored. *)
Definition linked (st : store) : Prop :=
  (forall a, In a (JsMap.values (applications st)) ->
             In (app_shipId a) (JsMap.keys (ships st)))
  /\ (forall al, In al (JsMap.values (allocations st)) ->
                 In (alloc_shipId al) (JsMap.keys (ships st))
                 /\ In (alloc_applicationId al) (JsMap.keys (applications st)))
  /\ (forall d, In d (JsMap.values (distributions st)) ->
                In (dist_shipId d) (JsMap.keys (ships st))).

(** The applicants are stored in lower case, in the applications and in the
    allocations. *)
Definition applicants_normalized (st : store) : Prop :=
  (forall a, In a (JsMap.values (applications st)) ->
             toLowerCase (app_applicant a) = app_applicant a)
  /\ (forall al, In al (JsMap.values (allocations st)) ->
                 toLowerCase (alloc_applicant al) = alloc_applicant al).

(** *** [GET /stats] *)

(** The answer of [GET /stats]; the two totals are the wei the server
    formats. *)
Record stats_response : Type := mkStats {
  stats_ships : nat;
  activeShips : nat;
  stats_applications : nat;
  approvedApplications : nat;
  totalBudget : Z;
  totalDistributed : Z
}.

Definition is_open (s : ship) : bool :=
  match status s with Open => true | _ => false end.

Definition is_approved (a : application) : bool :=
  match app_status a with Approved => true | _ => false end.

Definition stats (st : store) : stats_response :=
  mkStats
    (List.length (ships st))
    (List.length (filter is_open (JsMap.values (ships st))))
    (List.length (applications st))
    (List.length (filter is_approved (JsMap.values (applications st))))
    (fold_left (fun sum s => sum + budget s) (JsMap.values (ships st)) 0)
    (fold_left (fun sum s => sum + distributed s) (JsMap.values (ships st)) 0).

(** *** The whitelist middleware *)

(** One element of the array the whitelist service answers: a string, an
    object with its [address] property ([JUndefined] when it has none), or
    anything else (a number, a boolean, null, an array). *)
Inductive whitelist_entry : Type :=
| EntryString (s : string)
| EntryObject (address : jsval)
| EntryOther.

(** [(e.address || e).toLowerCase()] *)
Definition entry_address (e : whitelist_entry) : outcome string :=
  match e with
  | EntryString s => Returned (toLowerCase s)
  | EntryObject address =>
      if truthy address then call_toLowerCase address else Raised
  | EntryOther => Raised
  end.

(** [data.map(e => (e.address || e).toLowerCase())] *)
Fixpoint entry_addresses (data : list whitelist_entry) : outcome (list string) :=
  match data with
  | [] => Returned []
  | e :: rest =>
      match entry_address e with
      | Raised => Raised
      | Returned a =>
          match entry_addresses rest with
          | Raised => Raised
          | Returned l => Returned (a :: l)
          end
      end
  end.

(** What [fetch] and [res.json()] give: an array, or a failure (the request
    failed, the body is not JSON, or it is not an array). *)
Inductive whitelist_reply : Type :=
| WhitelistFailed
| WhitelistData (data : list whitelist_entry).

(** [_whitelistCache] ([None] for null; the Set is kept as the list of its
    elements) and [_whitelistCacheTime]. *)
Record whitelist_cache : Type := mkCache {
  whitelistCache : option (list string);
  whitelistCacheTime : Z
}.

Definition no_cache : whitelist_cache := mkCache None 0.

Definition WHITELIST_CACHE_TTL : Z := 5 * 60 * 1000.

(** [set.has(a)] *)
Definition has (a : string) (set : list string) : bool :=
  existsb (String.eqb a) set.

(** The [catch] of [fetchWhitelist]: the cache if there is one, an empty
    set otherwise. *)
Definition stale (c : whitelist_cache) : list string :=
  match whitelistCache c with
  | Some set => set
  | None => []
  end.

(** The [try] of [fetchWhitelist]. *)
Definition refresh (now : Z) (reply : whitelist_reply) (c : whitelist_cache)
  : whitelist_cache * list string :=
  match reply with
  | WhitelistFailed => (c, stale c)
  | WhitelistData data =>
      match entry_addresses data with
      | Raised => (c, stale c)
      | Returned set => (mkCache (Some set) now, set)
      end
  end.

(** [fetchWhitelist()], called at time [now], [reply] being what the service
    would answer. *)
Definition fetchWhitelist (now : Z) (reply : whitelist_reply)
  (c : whitelist_cache) : whitelist_cache * list string :=
  match whitelistCache c with
  | Some set =>
      if now - whitelistCacheTime c <? WHITELIST_CACHE_TTL then (c, set)
      else refresh now reply c
  | None => refresh now reply c
  end.

Inductive whitelist_response : Type :=
| Whitelist400                 (* 400 'Address required' *)
| Whitelist403                 (* 403 'Invite-only. ...' *)
| WhitelistNext                (* next(): the handler runs *)
| WhitelistRaised.             (* addr.toLowerCase is not a function *)

(** [requireWhitelist(addressField)]; [body f] is [req.body?.[f]]. *)
Definition requireWhitelist (addressField : string) (body : string -> jsval)
  (now : Z) (reply : whitelist_reply) (c : whitelist_cache)
  : whitelist_cache * whitelist_response :=
  let addr :=
    js_or (js_or (js_or (js_or (js_or (body addressField) (body "creator"))
                               (body "participant"))
                        (body "sender"))
                 (body "from"))
          (body "address") in
  if negb (truthy addr) then (c, Whitelist400)
  else
    let (c', whitelist) := fetchWhitelist now reply c in
    match call_toLowerCase addr with
    | Raised => (c', WhitelistRaised)
    | Returned a =>
        if negb (has a whitelist) then (c', Whitelist403)
        else (c', WhitelistNext)
    end.

(** * Properties *)

Ltac break_match :=
  match goal with
  | |- context [match ?x with _ => _ end] => destruct x eqn:?
  end.

Ltac split_ands := repeat match goal with |- _ /\ _ => split end.

Ltac handler_cases := repeat (break_match; simpl); try assumption.

(** The cases of the calls of [formatETH] in the goal. *)
Ltac format_cases :=
  repeat match goal with
         | |- context [match formatETH ?x with _ => _ end] =>
             destruct (formatETH x) as [?rendered|] eqn:?
         end.

(** The cases of the calls of [formatETH] in a hypothesis. *)
Ltac format_cases_in H :=
  repeat match type of H with
         | context [match formatETH ?x with _ => _ end] =>
             destruct (formatETH x) as [?rendered|] eqn:?
         end.


(** ** The map *)

Lemma get_set_eq {V : Type} (k : string) (v : V) (m : JsMap.t V) :
  JsMap.get k (JsMap.set k v m) = Some v.
Proof.
  induction m as [|[k' v'] r IH]; simpl.
  - now rewrite String.eqb_refl.
  - destruct (String.eqb k k') eqn:E; simpl.
    + now rewrite String.eqb_refl.
    + now rewrite E.
Qed.

Lemma get_set_other {V : Type} (k k' : string) (v : V) (m : JsMap.t V) :
  k' <> k -> JsMap.get k' (JsMap.set k v m) = JsMap.get k' m.
Proof.
  intros Hne. apply String.eqb_neq in Hne.
  induction m as [|[k0 v0] r IH]; simpl.
  - now rewrite Hne.
  - destruct (String.eqb k k0) eqn:E; simpl.
    + apply String.eqb_eq in E. subst k0. now rewrite Hne.
    + now rewrite IH.
Qed.

Lemma get_in_values {V : Type} (k : string) (v : V) (m : JsMap.t V) :
  JsMap.get k m = Some v -> In v (JsMap.values m).
Proof.
  induction m as [|[k' v'] r IH]; simpl; [discriminate|].
  destruct (String.eqb k k'); intros H.
  - left. congruence.
  - right. auto.
Qed.

Lemma in_values_set {V : Type} (k : string) (v x : V) (m : JsMap.t V) :
  In x (JsMap.values (JsMap.set k v m)) -> x = v \/ In x (JsMap.values m).
Proof.
  induction m as [|[k' v'] r IH]; simpl.
  - intros [H|[]]. now left.
  - destruct (String.eqb k k'); simpl.
    + intros [H|H]; [now left | right; now right].
    + intros [H|H]; [right; now left |].
      destruct (IH H); [now left | right; now right].
Qed.

Lemma values_set_all {V : Type} (P : V -> Prop) (k : string) (v : V)
  (m : JsMap.t V) :
  (forall x, In x (JsMap.values m) -> P x) -> P v ->
  forall x, In x (JsMap.values (JsMap.set k v m)) -> P x.
Proof.
  intros Hm Hv x Hx. destruct (in_values_set _ _ _ _ Hx); subst; auto.
Qed.

Lemma in_keys_set {V : Type} (k x : string) (v : V) (m : JsMap.t V) :
  In x (JsMap.keys (JsMap.set k v m)) -> x = k \/ In x (JsMap.keys m).
Proof.
  induction m as [|[k' v'] r IH]; simpl.
  - intros [H|[]]. now left.
  - destruct (String.eqb k k') eqn:E; simpl.
    + apply String.eqb_eq in E. subst k'. tauto.
    + intros [H|H]; [right; now left |].
      destruct (IH H); [now left | right; now right].
Qed.

Lemma get_none_keys {V : Type} (k : string) (m : JsMap.t V) :
  JsMap.get k m = None <-> ~ In k (JsMap.keys m).
Proof.
  induction m as [|[k' v'] r IH]; simpl; [tauto|].
  destruct (String.eqb k k') eqn:E.
  - apply String.eqb_eq in E. subst. split; [discriminate | tauto].
  - apply String.eqb_neq in E. rewrite IH. split; [intros H [?|?] | ]; intuition congruence.
Qed.

Lemma keyed_set {V : Type} (id_of : V -> string) (v : V) (m : JsMap.t V) :
  keyed id_of m -> keyed id_of (JsMap.set (id_of v) v m).
Proof.
  unfold keyed. induction m as [|[k' v'] r IH]; simpl; intros [H N].
  - split; repeat constructor. intros [].
  - inversion H; subst. inversion N; subst.
    destruct (String.eqb (id_of v) k') eqn:E.
    + apply String.eqb_eq in E. subst k'. split; constructor; auto.
    + apply String.eqb_neq in E. destruct IH as [IH1 IH2]; [now split|].
      split; constructor; auto.
      intros Hin. apply in_keys_set in Hin. simpl in Hin.
      destruct Hin as [Hin|Hin]; [congruence | contradiction].
Qed.

Lemma keyed_get {V : Type} (id_of : V -> string) (k : string) (v : V)
  (m : JsMap.t V) :
  keyed id_of m -> JsMap.get k m = Some v -> id_of v = k.
Proof.
  unfold keyed. intros [H _]. induction m as [|[k' v'] r IH]; simpl; [discriminate|].
  inversion H; subst; simpl in *.
  destruct (String.eqb k k') eqn:E; intros G.
  - apply String.eqb_eq in E. congruence.
  - auto.
Qed.

Lemma get_some_keys {V : Type} (k : string) (v : V) (m : JsMap.t V) :
  JsMap.get k m = Some v -> In k (JsMap.keys m).
Proof.
  induction m as [|[k' v'] r IH]; simpl; [discriminate|].
  destruct (String.eqb k k') eqn:E; intros G.
  - apply String.eqb_eq in E. now left.
  - right. auto.
Qed.

Lemma keyed_in_get {V : Type} (id_of : V -> string) (v : V) (m : JsMap.t V) :
  keyed id_of m -> In v (JsMap.values m) -> JsMap.get (id_of v) m = Some v.
Proof.
  unfold keyed. induction m as [|[k' v'] r IH]; simpl; intros [H N]; [tauto|].
  inversion H as [|? ? Hk Hr]; subst. inversion N as [|? ? Hn Nr]; subst.
  simpl in Hk. intros [Hv|Hv].
  - subst v'. rewrite Hk. now rewrite String.eqb_refl.
  - assert (G : JsMap.get (id_of v) r = Some v) by (apply IH; [now split | assumption]).
    destruct (String.eqb (id_of v) k') eqn:E; [|assumption].
    apply String.eqb_eq in E. apply get_some_keys in G. congruence.
Qed.

(** ** Lower case *)

Lemma lower_ascii_idem (c : ascii) : lower_ascii (lower_ascii c) = lower_ascii c.
Proof.
  destruct c as [[] [] [] [] [] [] [] []]; reflexivity.
Qed.

Lemma toLowerCase_idem (s : string) : toLowerCase (toLowerCase s) = toLowerCase s.
Proof.
  induction s as [|c r IH]; simpl; [reflexivity|].
  now rewrite lower_ascii_idem, IH.
Qed.

(** ** Fees *)

Lemma fee_bounds (total : Z) : 0 <= total -> 0 <= fee total <= total.
Proof.
  intros H. unfold fee, FEE_PERCENT.
  rewrite Z.quot_div_nonneg by lia. split.
  - apply Z.div_pos; lia.
  - apply Z.div_le_upper_bound; lia.
Qed.

Lemma netTotal_bounds (total : Z) : 0 <= total -> 0 <= netTotal total <= total.
Proof.
  intros H. unfold netTotal. pose proof (fee_bounds total H). lia.
Qed.

Lemma fold_amount_shift (l : list allocation) (acc : Z) :
  fold_left (fun sum a => sum + amount a) l acc
  = acc + fold_left (fun sum a => sum + amount a) l 0.
Proof.
  revert acc. induction l as [|a r IH]; intros acc; simpl; [lia|].
  rewrite (IH (acc + amount a)), (IH (amount a)). lia.
Qed.

Lemma totalToDistribute_cons (a : allocation) (l : list allocation) :
  totalToDistribute (a :: l) = amount a + totalToDistribute l.
Proof.
  unfold totalToDistribute. simpl. rewrite fold_amount_shift. lia.
Qed.

Lemma totalToDistribute_nonneg (l : list allocation) :
  (forall a, In a l -> 0 < amount a) -> 0 <= totalToDistribute l.
Proof.
  induction l as [|a r IH]; intros H.
  - unfold totalToDistribute. simpl. lia.
  - rewrite totalToDistribute_cons.
    assert (0 < amount a) by (apply H; now left).
    assert (0 <= totalToDistribute r) by (apply IH; intros; apply H; now right).
    lia.
Qed.

Lemma is_pending_spec (s : ship) (a : allocation) :
  is_pending s a = true <->
  alloc_shipId a = ship_id s /\ alloc_distributed a = false /\ 0 < amount a.
Proof.
  unfold is_pending. rewrite !andb_true_iff, negb_true_iff, String.eqb_eq.
  rewrite Z.gtb_ltb, Z.ltb_lt. tauto.
Qed.

Lemma pending_spec (s : ship) (st : store) (a : allocation) :
  In a (pendingAllocations s st) <->
  In a (JsMap.values (allocations st)) /\
  alloc_shipId a = ship_id s /\ alloc_distributed a = false /\ 0 < amount a.
Proof.
  unfold pendingAllocations. rewrite filter_In, is_pending_spec. tauto.
Qed.

(** ** Formatting *)

Lemma formatETH_range (wei : Z) :
  - 2 ^ 511 <= wei < 2 ^ 511 -> formatETH wei = Returned wei.
Proof.
  intros [Hl Hu]. unfold formatETH.
  apply Z.leb_le in Hl. apply Z.ltb_lt in Hu. now rewrite Hl, Hu.
Qed.

Lemma formatETH_returned (wei r : Z) :
  formatETH wei = Returned r -> r = wei /\ - 2 ^ 511 <= wei < 2 ^ 511.
Proof.
  unfold formatETH.
  destruct (- 2 ^ 511 <=? wei) eqn:Hl; [|discriminate].
  destruct (wei <? 2 ^ 511) eqn:Hu; [|discriminate].
  simpl. intros H. injection H as <-.
  apply Z.leb_le in Hl. apply Z.ltb_lt in Hu. auto.
Qed.

Lemma formatETH_raised (wei : Z) :
  formatETH wei = Raised <-> wei < - 2 ^ 511 \/ 2 ^ 511 <= wei.
Proof.
  unfold formatETH.
  destruct (- 2 ^ 511 <=? wei) eqn:Hl; destruct (wei <? 2 ^ 511) eqn:Hu;
    simpl; rewrite ?Z.leb_le, ?Z.leb_gt, ?Z.ltb_lt, ?Z.ltb_ge in *;
    split; intros H; try discriminate; try reflexivity; lia.
Qed.

Lemma formatETH_cases (wei : Z) :
  formatETH wei = Returned wei \/ formatETH wei = Raised.
Proof.
  destruct (formatETH wei) as [r|] eqn:E; [|now right].
  apply formatETH_returned in E. destruct E as [-> _]. now left.
Qed.

(** ** The payout loop *)

Lemma pay_transfers send i l r :
  run_transfers (pay send i l r)
  = (run_transfers r ++ map transfer_of (attempts send i l))%list.
Proof.
  revert i r. induction l as [|a rest IH]; intros i r; simpl.
  - now rewrite app_nil_r.
  - destruct (send i) as [h|]; rewrite IH; simpl;
      now rewrite <- app_assoc.
Qed.

Lemma pay_payouts send i l r :
  run_payouts (pay send i l r)
  = (run_payouts r ++ flat_map payout_of (attempts send i l))%list.
Proof.
  revert i r. induction l as [|a rest IH]; intros i r; simpl.
  - now rewrite app_nil_r.
  - unfold payout_of at 2; simpl.
    destruct (send i) as [h|]; rewrite IH; simpl; [|reflexivity].
    now rewrite <- app_assoc.
Qed.

Lemma pay_keyed send i l r :
  keyed alloc_id (run_allocations r) ->
  keyed alloc_id (run_allocations (pay send i l r)).
Proof.
  revert i r. induction l as [|a rest IH]; intros i r H; simpl; [assumption|].
  destruct (send i) as [h|]; apply IH; simpl; [|assumption].
  apply (keyed_set alloc_id (mark_distributed h a)), H.
Qed.

Lemma keyed_ids {V : Type} (id_of : V -> string) (m : JsMap.t V) :
  keyed id_of m -> map id_of (JsMap.values m) = JsMap.keys m.
Proof.
  intros [H _]. unfold JsMap.values, JsMap.keys. rewrite map_map.
  apply map_ext_in. intros kv Hin. rewrite Forall_forall in H. auto.
Qed.

Lemma keyed_same_id {V : Type} (id_of : V -> string) (x y : V) (m : JsMap.t V) :
  keyed id_of m -> In x (JsMap.values m) -> In y (JsMap.values m) ->
  id_of x = id_of y -> x = y.
Proof.
  intros K Hx Hy E.
  apply (keyed_in_get id_of _ _ K) in Hx. apply (keyed_in_get id_of _ _ K) in Hy.
  congruence.
Qed.

(** Replacing, in a keyed map, the object stored under a key it holds. *)
Lemma values_set_keyed {V : Type} (id_of : V -> string) (k : string) (v : V)
  (m : JsMap.t V) :
  keyed id_of m -> In k (JsMap.keys m) ->
  JsMap.values (JsMap.set k v m)
  = map (fun x => if (id_of x =? k)%string then v else x) (JsMap.values m).
Proof.
  unfold keyed. induction m as [|[k' v'] r IH]; simpl; intros [H N] Hin; [tauto|].
  inversion H as [|? ? Hk Hr]; subst. inversion N as [|? ? Hn Nr]; subst.
  simpl in Hk. rewrite Hk.
  destruct (String.eqb k k') eqn:E.
  - apply String.eqb_eq in E. rewrite <- E in *. clear E.
    rewrite String.eqb_refl. simpl. f_equal.
    symmetry. rewrite <- (map_id (JsMap.values r)) at 2.
    apply map_ext_in. intros x Hx.
    destruct (String.eqb (id_of x) k) eqn:E'; [|reflexivity].
    apply String.eqb_eq in E'. exfalso. apply Hn.
    rewrite <- (keyed_ids id_of r) by now split.
    rewrite <- E'. now apply in_map.
  - rewrite String.eqb_sym, E. simpl. f_equal.
    apply IH; [now split|]. apply String.eqb_neq in E.
    destruct Hin; [congruence | assumption].
Qed.

Lemma paid_hash_none send i l k :
  (forall b, In b l -> alloc_id b <> k) -> paid_hash (attempts send i l) k = None.
Proof.
  revert i. induction l as [|a rest IH]; intros i H; simpl; [reflexivity|].
  destruct (String.eqb (alloc_id a) k) eqn:E.
  - apply String.eqb_eq in E. exfalso. apply (H a); [now left | assumption].
  - apply IH. intros b Hb. apply H. now right.
Qed.

Lemma pay_allocations send i l r :
  keyed alloc_id (run_allocations r) ->
  (forall a, In a l -> In a (JsMap.values (run_allocations r))) ->
  NoDup (map alloc_id l) ->
  JsMap.values (run_allocations (pay send i l r))
  = map (settle (attempts send i l)) (JsMap.values (run_allocations r)).
Proof.
  revert i r. induction l as [|a rest IH]; intros i r K Hin N; simpl.
  - rewrite <- (map_id (JsMap.values _)) at 1. now apply map_ext.
  - inversion N as [|? ? Ha Nrest]; subst.
    assert (Hfresh : forall b, In b rest -> alloc_id b <> alloc_id a).
    { intros b Hb E. apply Ha. rewrite <- E. now apply in_map. }
    assert (Hina : In a (JsMap.values (run_allocations r)))
      by (apply Hin; now left).
    pose proof (paid_hash_none send (S i) rest (alloc_id a) Hfresh) as Hnone.
    destruct (send i) as [h|].
    + assert (Hv : JsMap.values
                     (JsMap.set (alloc_id a) (mark_distributed h a)
                                (run_allocations r))
                   = map (fun x => if (alloc_id x =? alloc_id a)%string
                                   then mark_distributed h a else x)
                         (JsMap.values (run_allocations r))).
      { apply values_set_keyed; [assumption|].
        rewrite <- (keyed_ids alloc_id) by assumption. now apply in_map. }
      rewrite IH; simpl.
      * rewrite Hv, map_map. apply map_ext_in. intros x Hx.
        unfold settle; simpl.
        destruct (String.eqb (alloc_id x) (alloc_id a)) eqn:E.
        -- apply String.eqb_eq in E.
           assert (x = a) by (eapply keyed_same_id; eauto). subst x.
           simpl. rewrite Hnone, String.eqb_refl. reflexivity.
        -- rewrite String.eqb_sym, E. reflexivity.
      * apply (keyed_set alloc_id (mark_distributed h a)), K.
      * intros b Hb. rewrite Hv. apply in_map_iff. exists b. split.
        -- destruct (String.eqb (alloc_id b) (alloc_id a)) eqn:E; [|reflexivity].
           apply String.eqb_eq in E. exfalso. now apply (Hfresh b).
        -- apply Hin. now right.
      * assumption.
    + rewrite IH; simpl; try assumption.
      * apply map_ext_in. intros x Hx. unfold settle; simpl.
        destruct (String.eqb (alloc_id a) (alloc_id x)) eqn:E; [|reflexivity].
        apply String.eqb_eq in E. rewrite <- E, Hnone. reflexivity.
      * intros b Hb. apply Hin. now right.
Qed.

(** Selecting among allocations of distinct ids leaves distinct ids. *)
Lemma filter_ids_distinct (keep : allocation -> bool) (l : list allocation) :
  NoDup (map alloc_id l) -> NoDup (map alloc_id (filter keep l)).
Proof.
  intros N. induction l as [|a r IH]; simpl; [constructor|].
  simpl in N. apply NoDup_cons_iff in N. destruct N as [Ha Nr].
  destruct (keep a); simpl; [|now apply IH].
  apply NoDup_cons_iff. split; [|now apply IH].
  intros Hin. apply Ha. apply in_map_iff in Hin.
  destruct Hin as (x & E & Hx). apply filter_In in Hx.
  rewrite <- E. apply in_map. tauto.
Qed.

Lemma pending_ids_distinct s st :
  keyed alloc_id (allocations st) ->
  NoDup (map alloc_id (pendingAllocations s st)).
Proof.
  intros K. apply filter_ids_distinct. rewrite (keyed_ids alloc_id) by assumption.
  apply K.
Qed.

(** ** Invariants of the store *)

Section Ledger.

Variable isAddress : jsval -> bool.
Variable parseEther : string -> option Z.
Variable TREASURY_ADDRESS : string.
Variable wallet : bool.

Lemma createShip_all_ships (P : ship -> Prop) body uuid st :
  (forall c, call_toLowerCase (sb_captain body) = Returned c ->
             P (mkShip uuid (sb_name body) c 0 0 0 Open)) ->
  all_ships P st -> all_ships P (fst (createShip isAddress body uuid st)).
Proof.
  intros Hnew H. unfold createShip. handler_cases.
  unfold all_ships; simpl. apply values_set_all; auto.
Qed.

Lemma closeExpired_all_ships (P : ship -> Prop) expired st :
  (forall s, P s -> P (set_status Closed s)) ->
  all_ships P st -> all_ships P (closeExpired expired st).
Proof.
  intros Hupd H s. unfold closeExpired, JsMap.values; simpl.
  rewrite map_map, in_map_iff. intros [[k x] [<- Hin]]; simpl.
  assert (P x) by (apply H, in_map_iff; exists (k, x); auto).
  destruct (status x); auto. destruct (expired x); auto.
Qed.

Lemma fund_all_ships (P : ship -> Prop) id txHash chain st :
  (forall s v, In s (JsMap.values (ships st)) -> P s ->
               P (set_budget (budget s + Z.of_N v) s)) ->
  all_ships P st -> all_ships P (fst (fund TREASURY_ADDRESS id txHash chain st)).
Proof.
  intros Hupd H. unfold fund. handler_cases.
  unfold all_ships; simpl. apply values_set_all; auto.
  apply Hupd; eauto using get_in_values.
Qed.

Lemma apply_ships id body uuid st :
  ships (fst (apply isAddress parseEther id body uuid st)) = ships st.
Proof.
  unfold apply. handler_cases; reflexivity.
Qed.

Lemma allocate_all_ships (P : ship -> Prop) id body uuid st :
  (forall s w, In s (JsMap.values (ships st)) -> P s ->
               w <= budget s - allocated s ->
               P (set_allocated (allocated s + w) s)) ->
  all_ships P st -> all_ships P (fst (allocate parseEther id body uuid st)).
Proof.
  intros Hupd H. unfold allocate. handler_cases.
  all: unfold all_ships; simpl; apply values_set_all; auto.
  all: match goal with
       | E : (_ >? _) = false |- _ => rewrite Z.gtb_ltb, Z.ltb_ge in E
       end.
  all: apply Hupd; eauto using get_in_values.
Qed.

Lemma distribute_all_ships (P : ship -> Prop) id send uuid st :
  (forall s n, In s (JsMap.values (ships st)) -> P s -> 0 <= n ->
     P (set_status (if distributed s + n >=? allocated s
                    then Completed else Distributing)
                   (set_distributed (distributed s + n) s))) ->
  all_ships P st -> all_ships P (fst (fst (distribute wallet id send uuid st))).
Proof.
  intros Hupd H. unfold distribute.
  destruct (JsMap.get id (ships st)) as [s|] eqn:G; [|assumption].
  destruct (negb wallet); [assumption|].
  destruct (pendingAllocations s st) as [|a l] eqn:Ep; [assumption|].
  assert (Hs : P (set_status
                    (if distributed s + netTotal (totalToDistribute (a :: l))
                        >=? allocated s
                     then Completed else Distributing)
                    (set_distributed
                       (distributed s + netTotal (totalToDistribute (a :: l)))
                       s))).
  { apply Hupd.
    - eauto using get_in_values.
    - eauto using get_in_values.
    - apply netTotal_bounds, totalToDistribute_nonneg.
      intros x Hx. rewrite <- Ep in Hx. apply pending_spec in Hx. tauto. }
  cbv zeta. format_cases.
  all: unfold all_ships; cbn [fst ships]; apply values_set_all; auto.
Qed.

(** Budget bounds and lower-case captains hold for every stored ship,
    whatever requests were served. *)
Lemma step_budget_bounds st st' :
  step isAddress parseEther TREASURY_ADDRESS wallet st st' ->
  all_ships budget_bounds st -> all_ships budget_bounds st'.
Proof.
  unfold budget_bounds.
  intros Hs H. destruct Hs.
  - apply createShip_all_ships; auto. intros; simpl; lia.
  - apply closeExpired_all_ships; auto.
  - apply fund_all_ships; auto. intros; simpl in *; lia.
  - unfold all_ships. rewrite apply_ships. exact H.
  - apply allocate_all_ships; auto. intros; simpl in *; lia.
  - apply distribute_all_ships; auto.
    intros s n _ Hs Hn. destruct (_ >=? _); simpl; lia.
Qed.

Lemma step_captain_normalized st st' :
  step isAddress parseEther TREASURY_ADDRESS wallet st st' ->
  all_ships captain_normalized st -> all_ships captain_normalized st'.
Proof.
  unfold captain_normalized.
  intros Hs H. destruct Hs.
  - apply createShip_all_ships; auto. intros c Hc; simpl.
    destruct (sb_captain body); simpl in Hc; try discriminate.
    injection Hc as <-. apply toLowerCase_idem.
  - apply closeExpired_all_ships; auto.
  - apply fund_all_ships; auto.
  - unfold all_ships. rewrite apply_ships. exact H.
  - apply allocate_all_ships; auto.
  - apply distribute_all_ships; auto.
Qed.

Lemma reachable_captain_normalized st :
  reachable isAddress parseEther TREASURY_ADDRESS wallet st ->
  all_ships captain_normalized st.
Proof.
  induction 1 as [|st st' _ IH Hs].
  - intros s [].
  - eapply step_captain_normalized; eauto.
Qed.

Lemma reachable_budget_bounds st :
  reachable isAddress parseEther TREASURY_ADDRESS wallet st ->
  all_ships budget_bounds st.
Proof.
  induction 1 as [|st st' _ IH Hs].
  - intros s [].
  - eapply step_budget_bounds; eauto.
Qed.

Lemma closeExpired_keyed expired st :
  keyed ship_id (ships st) -> keyed ship_id (ships (closeExpired expired st)).
Proof.
  unfold keyed, closeExpired, JsMap.keys; simpl. intros [H N]. split.
  - rewrite Forall_forall in *. intros kv Hin.
    apply in_map_iff in Hin. destruct Hin as [[k x] [<- Hin]]; simpl.
    specialize (H _ Hin); simpl in H.
    destruct (status x); auto. destruct (expired x); auto.
  - rewrite map_map; simpl. exact N.
Qed.

Lemma step_well_keyed st st' :
  step isAddress parseEther TREASURY_ADDRESS wallet st st' ->
  well_keyed st -> well_keyed st'.
Proof.
  unfold well_keyed. intros Hs (Ks & Ka & Kl). destruct Hs.
  - unfold createShip. handler_cases; simpl; auto.
    split_ands; auto.
    apply (keyed_set ship_id (mkShip uuid (sb_name body) a 0 0 0 Open)), Ks.
  - simpl. split_ands; auto. exact (closeExpired_keyed expired st Ks).
  - unfold fund. handler_cases; simpl; auto.
    split_ands; auto.
    match goal with
    | |- keyed _ (JsMap.set _ ?v _) => apply (keyed_set ship_id v), Ks
    end.
  - unfold apply. handler_cases; simpl; auto.
    split_ands; auto.
    match goal with
    | |- keyed _ (JsMap.set _ ?v _) => apply (keyed_set app_id v), Ka
    end.
  - unfold allocate. handler_cases; simpl; auto; split_ands; auto.
    all: match goal with
         | |- keyed ship_id (JsMap.set _ ?v _) =>
             apply (keyed_set ship_id v), Ks
         | |- keyed app_id (JsMap.set _ ?v _) =>
             apply (keyed_set app_id v), Ka
         | |- keyed alloc_id (JsMap.set _ ?v _) =>
             apply (keyed_set alloc_id v), Kl
         end.
  - unfold distribute.
    destruct (JsMap.get id (ships st)) as [s|]; simpl; auto.
    destruct (negb wallet); simpl; auto.
    destruct (pendingAllocations s st) as [|a l]; simpl; auto.
    pose proof (pay_keyed send 0 (a :: l) (mkRun (allocations st) [] []) Kl)
      as Kp.
    cbv zeta. format_cases.
    all: cbn [fst ships applications allocations]; split_ands; auto.
    all: match goal with
         | |- keyed _ (JsMap.set _ ?v _) => apply (keyed_set ship_id v), Ks
         end.
Qed.

Lemma reachable_well_keyed st :
  reachable isAddress parseEther TREASURY_ADDRESS wallet st -> well_keyed st.
Proof.
  induction 1 as [|st st' _ IH Hs].
  - unfold well_keyed, keyed, empty_store; simpl.
    repeat split; constructor.
  - eapply step_well_keyed; eauto.
Qed.

End Ledger.

Lemma reachable_budget_nonneg isAddress parseEther treasury wallet st :
  reachable isAddress parseEther treasury wallet st ->
  all_ships (fun s => 0 <= budget s) st.
Proof.
  induction 1 as [|st st' _ IH Hs]; [intros s []|].
  destruct Hs.
  - apply createShip_all_ships; auto. intros; simpl; lia.
  - apply closeExpired_all_ships; auto.
  - apply fund_all_ships; auto. intros; simpl in *; lia.
  - unfold all_ships. rewrite apply_ships. exact IH.
  - apply allocate_all_ships; auto.
  - apply distribute_all_ships; auto.
Qed.

(** ** Decisions: [POST /applications/:id/allocate] *)

Lemma strict_eq_false_iff (v : jsval) :
  strict_eq v (JBool false) = true <-> v = JBool false.
Proof.
  destruct v as [| |[]| |]; simpl; split; intros; congruence.
Qed.

Lemma strict_eq_false_neq (v : jsval) :
  v <> JBool false -> strict_eq v (JBool false) = false.
Proof.
  intros H. destruct (strict_eq v (JBool false)) eqn:E; [|reflexivity].
  apply strict_eq_false_iff in E. contradiction.
Qed.

Section Decisions.

Variable parseEther : string -> option Z.

Variables (id uuid : string) (body : allocate_body) (st : store).
Variables (application : application) (ship : ship).
Hypothesis Happ : JsMap.get id (applications st) = Some application.
Hypothesis Hship : JsMap.get (app_shipId application) (ships st) = Some ship.


Lemma allocate_reject :
  is_captain body ship ->
  approved body = JBool false ->
  allocate parseEther id body uuid st
  = (with_applications
       (JsMap.set (app_id application) (set_app_status Rejected application)
                  (applications st)) st,
     Allocate200_rejected (set_app_status Rejected application)).
Proof.
  unfold is_captain. intros Hc Ha. unfold allocate.
  rewrite Happ, Hship, Hc, Ha. simpl. now rewrite String.eqb_refl.
Qed.

Lemma allocate_invalid_amount :
  is_captain body ship ->
  approved body <> JBool false ->
  parse_amount parseEther (body_amount body) = None ->
  allocate parseEther id body uuid st = (st, Allocate400_amount).
Proof.
  unfold is_captain. intros Hc Ha Hp. unfold allocate.
  rewrite Happ, Hship, Hc, (strict_eq_false_neq _ Ha), Hp. simpl.
  now rewrite String.eqb_refl.
Qed.

Lemma allocate_insufficient w :
  is_captain body ship ->
  approved body <> JBool false ->
  parse_amount parseEther (body_amount body) = Some w ->
  w > budget ship - allocated ship ->
  allocate parseEther id body uuid st
  = (st,
     match formatETH (budget ship - allocated ship), formatETH w with
     | Returned r, Returned requested => Allocate400_budget r requested
     | _, _ => Allocate500
     end).
Proof.
  unfold is_captain. intros Hc Ha Hp Hw. unfold allocate.
  rewrite Happ, Hship, Hc, (strict_eq_false_neq _ Ha), Hp. simpl.
  rewrite String.eqb_refl. simpl.
  destruct (w >? budget ship - allocated ship) eqn:E.
  - format_cases; reflexivity.
  - rewrite Z.gtb_ltb, Z.ltb_ge in E. lia.
Qed.

(** An amount that fits but cannot be formatted is refused before anything
    is written. *)
Lemma allocate_unformattable w :
  is_captain body ship ->
  approved body <> JBool false ->
  parse_amount parseEther (body_amount body) = Some w ->
  formatETH w = Raised ->
  allocate parseEther id body uuid st = (st, Allocate500).
Proof.
  unfold is_captain. intros Hc Ha Hp Hf. unfold allocate.
  rewrite Happ, Hship, Hc, (strict_eq_false_neq _ Ha), Hp. simpl.
  rewrite String.eqb_refl. simpl. rewrite Hf.
  destruct (w >? budget ship - allocated ship); [|reflexivity].
  destruct (formatETH (budget ship - allocated ship)); reflexivity.
Qed.

(** An approval writes the three maps, then formats what is left of the
    budget for its answer. *)
Lemma allocate_approve w :
  is_captain body ship ->
  approved body <> JBool false ->
  parse_amount parseEther (body_amount body) = Some w ->
  w <= budget ship - allocated ship ->
  formatETH w = Returned w ->
  allocate parseEther id body uuid st
  = (mkStore
       (JsMap.set (ship_id ship) (set_allocated (allocated ship + w) ship)
                  (ships st))
       (JsMap.set (app_id application)
                  (set_app_allocation w (set_app_status Approved application))
                  (applications st))
       (JsMap.set uuid
                  (mkAllocation uuid (ship_id ship) (app_id application)
                                (app_projectName application)
                                (app_applicant application) w false None)
                  (allocations st))
       (distributions st),
     match formatETH (budget ship - allocated ship - w) with
     | Returned rest =>
         Allocate201
           (mkAllocation uuid (ship_id ship) (app_id application)
                         (app_projectName application)
                         (app_applicant application) w false None)
           (set_app_allocation w (set_app_status Approved application))
           rest
     | Raised => Allocate500
     end).
Proof.
  unfold is_captain. intros Hc Ha Hp Hw Hf. unfold allocate.
  rewrite Happ, Hship, Hc, (strict_eq_false_neq _ Ha), Hp. simpl.
  rewrite String.eqb_refl. simpl.
  destruct (w >? budget ship - allocated ship) eqn:E.
  - rewrite Z.gtb_ltb, Z.ltb_lt in E. lia.
  - rewrite Hf. format_cases; reflexivity.
Qed.

(** What an approval leaves in a keyed store, read back by lookups, and
    its answer. *)
Lemma allocate_approve_lookups w :
  well_keyed st ->
  is_captain body ship ->
  approved body <> JBool false ->
  parse_amount parseEther (body_amount body) = Some w ->
  w <= budget ship - allocated ship ->
  formatETH w = Returned w ->
  exists al app' ship',
    JsMap.get uuid (allocations (fst (allocate parseEther id body uuid st)))
    = Some al
    /\ alloc_id al = uuid /\ amount al = w /\ alloc_distributed al = false
    /\ alloc_applicationId al = id
    /\ alloc_shipId al = app_shipId application
    /\ JsMap.get id (applications (fst (allocate parseEther id body uuid st)))
       = Some app'
    /\ app_status app' = Approved /\ app_allocation app' = w
    /\ JsMap.get (app_shipId application)
                 (ships (fst (allocate parseEther id body uuid st)))
       = Some ship'
    /\ allocated ship' = allocated ship + w
    /\ budget ship' = budget ship /\ distributed ship' = distributed ship
    /\ (budget ship - allocated ship - w < 2 ^ 511 ->
        snd (allocate parseEther id body uuid st)
        = Allocate201 al app' (budget ship - allocated ship - w))
    /\ (2 ^ 511 <= budget ship - allocated ship - w ->
        snd (allocate parseEther id body uuid st) = Allocate500).
Proof.
  intros (Ks & Ka & _) Hc Ha Hp Hw Hf.
  rewrite (allocate_approve w Hc Ha Hp Hw Hf).
  cbn [fst snd ships applications allocations].
  pose proof (keyed_get _ _ _ _ Ks Hship) as Es.
  pose proof (keyed_get _ _ _ _ Ka Happ) as Ea.
  do 3 eexists.
  rewrite get_set_eq, Es, Ea, !get_set_eq.
  split_ands; try reflexivity.
  - intros Hlt. rewrite formatETH_range; [reflexivity|].
    split; [|assumption].
    assert (- 2 ^ 511 <= 0) by (apply Z.opp_nonpos_nonneg, Z.pow_nonneg; lia).
    lia.
  - intros Hge.
    assert (E : formatETH (budget ship - allocated ship - w) = Raised)
      by (apply formatETH_raised; now right).
    now rewrite E.
Qed.

End Decisions.

(** The stores of the scenario are stores of the server. *)
Lemma reachable_applied :
  reachable Ethers.isAddress Ethers.parseEther Scenario.treasury true
            Scenario.applied.
Proof.
  eapply reachable_step; [| apply step_apply].
  eapply reachable_step; [| apply step_fund].
  eapply reachable_step; [| apply step_createShip].
  apply reachable_start.
Qed.

Lemma reachable_approved_once :
  reachable Ethers.isAddress Ethers.parseEther Scenario.treasury true
            Scenario.approved_once.
Proof.
  eapply reachable_step; [apply reachable_applied | apply step_allocate].
Qed.

Lemma reachable_approved_negative :
  reachable Ethers.isAddress Ethers.parseEther Scenario.treasury true
            Scenario.approved_negative.
Proof.
  eapply reachable_step; [apply reachable_applied | apply step_allocate].
Qed.

Lemma reachable_approved_million :
  reachable Ethers.isAddress Ethers.parseEther Scenario.treasury true
            Scenario.approved_million.
Proof.
  eapply reachable_step; [apply reachable_applied | apply step_allocate].
Qed.



(** Whether a decision that is not a rejection is answered 'Invalid amount'
    depends on the parse alone. *)
Lemma allocate_400_amount_iff
  (parseEther : string -> option Z) (st : store) (id uuid : string)
  (body : allocate_body) (application : application) (ship : ship) :
  JsMap.get id (applications st) = Some application ->
  JsMap.get (app_shipId application) (ships st) = Some ship ->
  is_captain body ship ->
  approved body <> JBool false ->
  snd (allocate parseEther id body uuid st) = Allocate400_amount
  <-> parse_amount parseEther (body_amount body) = None.
Proof.
  intros Happ Hship Hc Ha.
  destruct (parse_amount parseEther (body_amount body)) as [w|] eqn:Hp.
  - split; [|discriminate]. intros H. exfalso.
    destruct (formatETH_cases w) as [Hf|Hf].
    + destruct (Z_le_gt_dec w (budget ship - allocated ship)) as [Hw|Hw].
      * rewrite (allocate_approve parseEther id uuid body st application ship
                   Happ Hship w Hc Ha Hp Hw Hf) in H.
        cbn [snd] in H. destruct (formatETH _); discriminate.
      * rewrite (allocate_insufficient parseEther id uuid body st application
                   ship Happ Hship w Hc Ha Hp Hw) in H.
        cbn [snd] in H. rewrite Hf in H. destruct (formatETH _); discriminate.
    + rewrite (allocate_unformattable parseEther id uuid body st application
                 ship Happ Hship w Hc Ha Hp Hf) in H. discriminate.
  - split; [reflexivity|]. intros _.
    now rewrite (allocate_invalid_amount parseEther id uuid body st
                   application ship Happ Hship Hc Ha Hp).
Qed.






(** C7. A decision of the captain that is not a rejection is answered 400
    'Invalid amount' exactly when the amount does not parse.  What is parsed
    is the amount itself when it is a non-empty string, the string "0" when
    the amount is absent, null, empty or [false], and otherwise its
    [toString()].  Nothing looks at the sign: when the amount is the string
    "-1" and the parser yields a negative number of wei for it, as
    [ethers.parseEther] does, the check against the remaining budget
    passes, the allocation is created with the negative amount, and the
    ship's [allocated] decreases; the answer is 201 as long as the rest of
    the budget stays below 2^511 wei. *)
Theorem allocate_invalid_amount_iff
  (parseEther : string -> option Z) (st : store) (id uuid : string)
  (cap amt v : jsval) (application : application) (ship : ship) :
  JsMap.get id (applications st) = Some application ->
  JsMap.get (app_shipId application) (ships st) = Some ship ->
  is_captain (mkAllocateBody cap amt v) ship ->
  v <> JBool false ->
  let result := allocate parseEther id (mkAllocateBody cap amt v) uuid st in
  (forall s, amt = JStr s -> s <> "" ->
     (snd result = Allocate400_amount <-> parseEther s = None))
  /\ (amt = JUndefined \/ amt = JNull \/ amt = JStr "" \/ amt = JBool false ->
      (snd result = Allocate400_amount <-> parseEther "0" = None))
  /\ (amt = JBool true ->
      (snd result = Allocate400_amount <-> parseEther "true" = None))
  /\ (forall n, amt = JNum n ->
        (snd result = Allocate400_amount
         <-> parseEther
               (if integer_value n =? 0 then "0"
                else NilZero.string_of_int (Z.to_int (integer_value n)))
             = None))
  /\ (forall w,
        amt = JStr "-1" -> parseEther "-1" = Some w ->
        w < 0 -> - 2 ^ 511 <= w ->
        allocated ship <= budget ship -> well_keyed st ->
        exists al app' ship',
          JsMap.get uuid (allocations (fst result)) = Some al
          /\ amount al = w /\ amount al < 0
          /\ JsMap.get (app_shipId application) (ships (fst result))
             = Some ship'
          /\ allocated ship' = allocated ship + w
          /\ allocated ship' < allocated ship
          /\ (budget ship - allocated ship - w < 2 ^ 511 ->
              snd result
              = Allocate201 al app' (budget ship - allocated ship - w))
          /\ (2 ^ 511 <= budget ship - allocated ship - w ->
              snd result = Allocate500))
  /\ Ethers.parseEther "-1" = Some (- 1000000000000000000).
Proof.
  intros Happ Hship Hc Hv result.
  pose proof (allocate_400_amount_iff parseEther st id uuid
                (mkAllocateBody cap amt v) application ship
                Happ Hship Hc Hv) as Hiff.
  fold result in Hiff. cbn [body_amount] in Hiff.
  split_ands.
  - intros s -> Hs. rewrite Hiff. unfold parse_amount, js_or. simpl.
    destruct (String.eqb s "") eqn:E; [|reflexivity].
    apply String.eqb_eq in E. contradiction.
  - intros [-> | [-> | [-> | ->]]]; rewrite Hiff; reflexivity.
  - intros ->. rewrite Hiff. reflexivity.
  - intros n ->. rewrite Hiff. unfold parse_amount, js_or. simpl.
    destruct (integer_value n =? 0); reflexivity.
  - intros w -> Hp Hneg Hlow Hb K.
    assert (Hf : formatETH w = Returned w).
    { apply formatETH_range. split; [assumption|].
      assert (0 < 2 ^ 511) by (apply Z.pow_pos_nonneg; lia). lia. }
    destruct (allocate_approve_lookups parseEther id uuid
                (mkAllocateBody cap (JStr "-1") v) st application
                ship Happ Hship w K Hc Hv Hp)
      as (al & app' & ship' & H); [lia | assumption |].
    exists al, app', ship'. subst result. intuition lia.
  - reflexivity.
Qed.

Lemma allocate_invalid_amount_iff_witness :
  snd (allocate Ethers.parseEther "app-1"
         (Scenario.decision (JStr "1e18") (JBool true)) "alloc-1"
         Scenario.applied)
  = Allocate400_amount
  /\ snd (allocate Ethers.parseEther "app-1"
            (Scenario.decision (JNum (mkSafeInteger 1 eq_refl)) (JBool true))
            "alloc-1" Scenario.applied)
     <> Allocate400_amount
  /\ exists al app' ship',
       snd (allocate Ethers.parseEther "app-1"
              (Scenario.decision (JStr "-1") (JBool true)) "alloc-1"
              Scenario.applied)
       = Allocate201 al app' (2000000000000000000 - 0 - - 1000000000000000000)
       /\ amount al < 0
       /\ allocated ship' < 0.
Proof.
  split; [|split].
  - pose proof (allocate_invalid_amount_iff Ethers.parseEther Scenario.applied
                  "app-1" "alloc-1" (JStr Scenario.captain_address)
                  (JStr "1e18") (JBool true)
                  Scenario.application_pending Scenario.ship_funded
                  eq_refl eq_refl eq_refl ltac:(discriminate)) as H.
    cbv zeta in H. destruct H as (H & _).
    apply (H "1e18" eq_refl); [discriminate | reflexivity].
  - pose proof (allocate_invalid_amount_iff Ethers.parseEther Scenario.applied
                  "app-1" "alloc-1" (JStr Scenario.captain_address)
                  (JNum (mkSafeInteger 1 eq_refl)) (JBool true)
                  Scenario.application_pending Scenario.ship_funded
                  eq_refl eq_refl eq_refl ltac:(discriminate)) as H.
    cbv zeta in H. destruct H as (_ & _ & _ & H & _).
    intros E. apply (H (mkSafeInteger 1 eq_refl) eq_refl) in E.
    vm_compute in E. discriminate.
  - pose proof (allocate_invalid_amount_iff Ethers.parseEther Scenario.applied
                  "app-1" "alloc-1" (JStr Scenario.captain_address)
                  (JStr "-1") (JBool true)
                  Scenario.application_pending Scenario.ship_funded
                  eq_refl eq_refl eq_refl ltac:(discriminate)) as H.
    cbv zeta in H. destruct H as (_ & _ & _ & _ & H & _).
    destruct (H (- 1000000000000000000) eq_refl eq_refl ltac:(lia)
                ltac:(vm_compute; discriminate)
                ltac:(simpl; lia)
                (reachable_well_keyed _ _ _ _ _ reachable_applied))
      as (al & app' & ship' & _ & _ & H3 & _ & _ & H6 & H7 & _).
    exists al, app', ship'. split; [|split; assumption].
    apply H7. vm_compute. reflexivity.
Defined.

(** C10. Any [approved] other than the boolean [false], an absent one
    included, is treated as an approval.  With [amount] absent as well the
    amount parsed is that of the string "0": where this is zero, as with
    [ethers.parseEther], the captain's call creates an allocation of amount
    zero and marks the application approved; the answer is 201 as long as
    the budget left is below 2^511 wei. *)
Theorem allocate_defaults
  (parseEther : string -> option Z) (st : store) (id uuid : string)
  (cap amt v : jsval) :
  v <> JBool false ->
  allocate parseEther id (mkAllocateBody cap amt v) uuid st
  = allocate parseEther id (mkAllocateBody cap amt (JBool true)) uuid st
  /\ (forall application ship,
        JsMap.get id (applications st) = Some application ->
        JsMap.get (app_shipId application) (ships st) = Some ship ->
        is_captain (mkAllocateBody cap JUndefined v) ship ->
        parseEther "0" = Some 0 ->
        allocated ship <= budget ship -> well_keyed st ->
        let result :=
          allocate parseEther id (mkAllocateBody cap JUndefined v) uuid st in
        exists al app',
          amount al = 0
          /\ JsMap.get uuid (allocations (fst result)) = Some al
          /\ JsMap.get id (applications (fst result)) = Some app'
          /\ app_status app' = Approved /\ app_allocation app' = 0
          /\ (budget ship - allocated ship - 0 < 2 ^ 511 ->
              snd result
              = Allocate201 al app' (budget ship - allocated ship - 0))
          /\ (2 ^ 511 <= budget ship - allocated ship - 0 ->
              snd result = Allocate500))
  /\ Ethers.parseEther "0" = Some 0.
Proof.
  intros Hv. split; [|split].
  - unfold allocate; simpl. rewrite (strict_eq_false_neq v Hv). reflexivity.
  - intros application ship Happ Hship Hc Hp Hb K result.
    assert (Hf : formatETH 0 = Returned 0) by (vm_compute; reflexivity).
    destruct (allocate_approve_lookups parseEther id uuid
                (mkAllocateBody cap JUndefined v) st application ship
                Happ Hship 0 K Hc Hv Hp)
      as (al & app' & ship' & H); [lia | assumption |].
    exists al, app'. subst result. intuition.
  - reflexivity.
Qed.

Lemma allocate_defaults_witness :
  exists al app',
    snd (allocate Ethers.parseEther "app-1"
           (mkAllocateBody (JStr Scenario.captain_address) JUndefined JUndefined)
           "alloc-1" Scenario.applied)
    = Allocate201 al app' (2000000000000000000 - 0 - 0)
    /\ amount al = 0 /\ app_status app' = Approved.
Proof.
  pose proof (allocate_defaults Ethers.parseEther Scenario.applied
                "app-1" "alloc-1" (JStr Scenario.captain_address)
                JUndefined JUndefined ltac:(discriminate)) as (_ & H & _).
  destruct (H Scenario.application_pending Scenario.ship_funded
              eq_refl eq_refl eq_refl eq_refl ltac:(simpl; lia)
              (reachable_well_keyed _ _ _ _ _ reachable_applied))
    as (al & app' & H1 & _ & _ & H4 & _ & H6 & _).
  exists al, app'. split; [|split; assumption].
  apply H6. vm_compute. reflexivity.
Defined.

(** C3, refuted as stated: in [Scenario.approved_once] the application is
    approved already, yet a second approval by the captain is answered 201,
    creates a second allocation and raises the ship's [allocated] to 2
    ether; and a rejection after the approval is answered 200 and turns the
    status from approved to rejected. *)
Lemma decide_twice_counterexample :
  (exists a, JsMap.get "app-1" (applications Scenario.approved_once) = Some a
             /\ app_status a = Approved)
  /\ (let again :=
        allocate Ethers.parseEther "app-1"
                 (Scenario.decision (JStr "1") (JBool true)) "alloc-2"
                 Scenario.approved_once in
      allocate_code (snd again) = 201
      /\ fst again <> Scenario.approved_once
      /\ List.length (JsMap.values (allocations (fst again))) = 2%nat
      /\ exists s, JsMap.get "ship-1" (ships (fst again)) = Some s
                   /\ allocated s = 2000000000000000000)
  /\ (let undo :=
        allocate Ethers.parseEther "app-1"
                 (Scenario.decision JUndefined (JBool false)) "alloc-2"
                 Scenario.approved_once in
      allocate_code (snd undo) = 200
      /\ exists a, JsMap.get "app-1" (applications (fst undo)) = Some a
                   /\ app_status a = Rejected).
Proof.
  split; [|split].
  - exists Scenario.application_approved. split; vm_compute; reflexivity.
  - cbv zeta. split; [vm_compute; reflexivity|]. split; [|split].
    + intros H.
      apply (f_equal (fun s => List.length (JsMap.values (allocations s)))) in H.
      vm_compute in H. discriminate.
    + vm_compute; reflexivity.
    + exists (set_allocated 2000000000000000000 Scenario.ship_funded).
      split; vm_compute; reflexivity.
  - cbv zeta. split; [vm_compute; reflexivity|].
    exists (set_app_status Rejected Scenario.application_approved).
    split; vm_compute; reflexivity.
Qed.

(** C3 (as amended). The handler never looks at the application's status:
    on an application that is approved or rejected already, a decision of
    the captain is processed like a first one.  A rejection is answered 200
    and sets the status to rejected; an approval whose amount parses (to a
    number of wei that [formatETH] renders) and fits the remaining budget
    creates a further allocation, adds its amount to the ship's [allocated]
    and sets the status to approved, and is answered 201 as long as the
    rest of the budget is below 2^511 wei. *)
Theorem allocate_on_decided
  (parseEther : string -> option Z) (st : store) (id uuid : string)
  (body : allocate_body) (application : application) (ship : ship) :
  well_keyed st ->
  JsMap.get id (applications st) = Some application ->
  app_status application <> Pending ->
  JsMap.get (app_shipId application) (ships st) = Some ship ->
  is_captain body ship ->
  let result := allocate parseEther id body uuid st in
  (approved body = JBool false ->
     snd result = Allocate200_rejected (set_app_status Rejected application)
     /\ JsMap.get id (applications (fst result))
        = Some (set_app_status Rejected application))
  /\ (approved body <> JBool false ->
      forall w,
        parse_amount parseEther (body_amount body) = Some w ->
        formatETH w = Returned w ->
        w <= budget ship - allocated ship ->
        exists al app' ship',
          JsMap.get uuid (allocations (fst result)) = Some al
          /\ amount al = w /\ alloc_applicationId al = id
          /\ JsMap.get id (applications (fst result)) = Some app'
          /\ app_status app' = Approved /\ app_allocation app' = w
          /\ JsMap.get (app_shipId application) (ships (fst result))
             = Some ship'
          /\ allocated ship' = allocated ship + w
          /\ (budget ship - allocated ship - w < 2 ^ 511 ->
              snd result
              = Allocate201 al app' (budget ship - allocated ship - w))
          /\ (2 ^ 511 <= budget ship - allocated ship - w ->
              snd result = Allocate500)).
Proof.
  intros K Happ _ Hship Hc result. subst result. split.
  - intros Ha.
    rewrite (allocate_reject parseEther id uuid body st application ship
               Happ Hship Hc Ha). simpl.
    destruct K as (_ & Ka & _).
    rewrite (keyed_get _ _ _ _ Ka Happ), get_set_eq. now split.
  - intros Ha w Hp Hf Hw.
    destruct (allocate_approve_lookups parseEther id uuid body st application
                ship Happ Hship w K Hc Ha Hp Hw Hf)
      as (al & app' & ship' & H).
    exists al, app', ship'. intuition.
Qed.

Lemma allocate_on_decided_witness :
  exists al app' ship',
    snd (allocate Ethers.parseEther "app-1"
           (Scenario.decision (JStr "1") (JBool true)) "alloc-2"
           Scenario.approved_once)
    = Allocate201 al app'
        (2000000000000000000 - 1000000000000000000 - 1000000000000000000)
    /\ app_status app' = Approved
    /\ allocated ship' = 1000000000000000000 + 1000000000000000000.
Proof.
  pose proof (allocate_on_decided Ethers.parseEther Scenario.approved_once
                "app-1" "alloc-2"
                (Scenario.decision (JStr "1") (JBool true))
                Scenario.application_approved Scenario.ship_once
                (reachable_well_keyed _ _ _ _ _ reachable_approved_once)
                eq_refl ltac:(discriminate) eq_refl eq_refl) as H.
  cbv zeta in H. destruct H as [_ H].
  destruct (H ltac:(discriminate) 1000000000000000000 eq_refl eq_refl
              ltac:(simpl; lia))
    as (al & app' & ship' & _ & _ & _ & _ & H5 & _ & _ & H8 & H9 & _).
  exists al, app', ship'. split; [|split; assumption].
  apply H9. vm_compute. reflexivity.
Defined.

(** ** Distribution: [POST /ships/:id/distribute] *)

(** What the handler does when the ship exists, a wallet is configured and
    something is pending: it pays, writes the ship, and then formats. *)
Lemma distribute_run wallet id send uuid st s :
  JsMap.get id (ships st) = Some s -> wallet = true ->
  pendingAllocations s st <> [] ->
  distribute wallet id send uuid st
  = (let pending := pendingAllocations s st in
     let total := totalToDistribute pending in
     let r := pay send 0 pending (mkRun (allocations st) [] []) in
     let s' :=
       set_status (if distributed s + netTotal total >=? allocated s
                   then Completed else Distributing)
                  (set_distributed (distributed s + netTotal total) s) in
     let d := mkDistribution uuid (ship_id s) (ship_name s) total (fee total)
                             (netTotal total) (run_payouts r) in
     match formatETH total, formatETH (fee total),
           formatETH (netTotal total) with
     | Returned _, Returned _, Returned _ =>
         match formatETH (budget s), formatETH (allocated s),
               formatETH (distributed s + netTotal total) with
         | Returned _, Returned _, Returned _ =>
             (mkStore (JsMap.set (ship_id s) s' (ships st)) (applications st)
                      (run_allocations r)
                      (JsMap.set uuid d (distributions st)),
              Distribute200 d s', run_transfers r)
         | _, _, _ =>
             (mkStore (JsMap.set (ship_id s) s' (ships st)) (applications st)
                      (run_allocations r)
                      (JsMap.set uuid d (distributions st)),
              DistributeRaised, run_transfers r)
         end
     | _, _, _ =>
         (mkStore (JsMap.set (ship_id s) s' (ships st)) (applications st)
                  (run_allocations r) (distributions st),
          DistributeRaised, run_transfers r)
     end).
Proof.
  intros G -> Hp. unfold distribute. rewrite G. cbn [negb].
  destruct (pendingAllocations s st) as [|a l]; [contradiction | reflexivity].
Qed.

(** What a distribution answered 200 has done. *)
Lemma distribute_200 wallet id send uuid st st' d s' ts :
  distribute wallet id send uuid st = (st', Distribute200 d s', ts) ->
  exists s,
    JsMap.get id (ships st) = Some s /\ wallet = true
    /\ pendingAllocations s st <> []
    /\ ts = map transfer_of (attempts send 0 (pendingAllocations s st))
    /\ payouts d = flat_map payout_of (attempts send 0 (pendingAllocations s st))
    /\ totalGross d = totalToDistribute (pendingAllocations s st)
    /\ s' = set_status
              (if distributed s
                  + netTotal (totalToDistribute (pendingAllocations s st))
                  >=? allocated s
               then Completed else Distributing)
              (set_distributed
                 (distributed s
                  + netTotal (totalToDistribute (pendingAllocations s st))) s)
    /\ ships st' = JsMap.set (ship_id s) s' (ships st)
    /\ applications st' = applications st
    /\ allocations st'
       = run_allocations
           (pay send 0 (pendingAllocations s st) (mkRun (allocations st) [] [])).
Proof.
  intros H.
  destruct (JsMap.get id (ships st)) as [s|] eqn:G;
    [| unfold distribute in H; rewrite G in H; discriminate].
  destruct wallet;
    [| unfold distribute in H; rewrite G in H; discriminate].
  assert (Hp : pendingAllocations s st <> []).
  { intros E. unfold distribute in H. rewrite G, E in H. discriminate. }
  rewrite (distribute_run true id send uuid st s G eq_refl Hp) in H.
  cbv zeta in H. format_cases_in H; try discriminate.
  apply pair_equal_spec in H. destruct H as [H Hts].
  apply pair_equal_spec in H. destruct H as [Hst Hresp].
  injection Hresp as Hd Hs.
  exists s. rewrite <- Hts, <- Hs, <- Hst, <- Hd, pay_transfers, pay_payouts.
  repeat split; try reflexivity; assumption.
Qed.

Lemma distribute_200_values wallet id send uuid st st' d s' ts :
  keyed alloc_id (allocations st) ->
  distribute wallet id send uuid st = (st', Distribute200 d s', ts) ->
  exists s,
    JsMap.get id (ships st) = Some s
    /\ JsMap.values (allocations st')
       = map (settle (attempts send 0 (pendingAllocations s st)))
             (JsMap.values (allocations st)).
Proof.
  intros K H. apply distribute_200 in H.
  destruct H as (s & G & _ & _ & _ & _ & _ & _ & _ & _ & Ha).
  exists s. split; [assumption|]. rewrite Ha.
  apply (pay_allocations send 0 (pendingAllocations s st)
                         (mkRun (allocations st) [] [])); simpl.
  - assumption.
  - intros a Hin. apply pending_spec in Hin. tauto.
  - now apply pending_ids_distinct.
Qed.

Lemma attempts_fst send i l : map fst (attempts send i l) = l.
Proof.
  revert i. induction l as [|a r IH]; intros i; simpl; [reflexivity|].
  now rewrite IH.
Qed.

Lemma attempts_in send i l a o :
  In (a, o) (attempts send i l) -> In a l.
Proof.
  intros H. rewrite <- (attempts_fst send i l).
  apply (in_map fst) in H. exact H.
Qed.

(** In a list of attempts on allocations of distinct ids, the recorded
    outcome of an attempt is the one [paid_hash] finds. *)
Lemma paid_hash_attempt send i l a o :
  NoDup (map alloc_id l) -> In (a, o) (attempts send i l) ->
  paid_hash (attempts send i l) (alloc_id a) = o.
Proof.
  revert i. induction l as [|b r IH]; intros i N; simpl; [tauto|].
  inversion N as [|? ? Hb Nr]; subst.
  intros [H|H].
  - injection H as -> ->. now rewrite String.eqb_refl.
  - destruct (String.eqb (alloc_id b) (alloc_id a)) eqn:E.
    + apply String.eqb_eq in E. exfalso. apply Hb. rewrite E.
      apply in_map. eapply attempts_in; eauto.
    + now apply IH.
Qed.

Lemma distribute_200_totals wallet id send uuid st st' d s' ts :
  distribute wallet id send uuid st = (st', Distribute200 d s', ts) ->
  totalFee d = fee (totalGross d) /\ totalNet d = netTotal (totalGross d)
  /\ 0 <= totalGross d.
Proof.
  intros H.
  destruct (JsMap.get id (ships st)) as [s|] eqn:G;
    [| unfold distribute in H; rewrite G in H; discriminate].
  destruct wallet;
    [| unfold distribute in H; rewrite G in H; discriminate].
  assert (Hp : pendingAllocations s st <> []).
  { intros E. unfold distribute in H. rewrite G, E in H. discriminate. }
  rewrite (distribute_run true id send uuid st s G eq_refl Hp) in H.
  cbv zeta in H. format_cases_in H; try discriminate.
  apply pair_equal_spec in H. destruct H as [H _].
  apply pair_equal_spec in H. destruct H as [_ Hresp].
  injection Hresp as Hd _. rewrite <- Hd. simpl.
  repeat split. apply totalToDistribute_nonneg.
  intros a Ha. apply pending_spec in Ha. tauto.
Qed.

Lemma settle_id l x : alloc_id (settle l x) = alloc_id x.
Proof.
  unfold settle. destruct (paid_hash l (alloc_id x)); reflexivity.
Qed.

Lemma settle_is_pending l s x :
  is_pending s (settle l x) = true ->
  settle l x = x /\ paid_hash l (alloc_id x) = None.
Proof.
  unfold settle. destruct (paid_hash l (alloc_id x)) as [h|]; [|tauto].
  unfold is_pending; simpl. rewrite andb_false_r. discriminate.
Qed.

Lemma payout_of_in l p :
  In p (flat_map payout_of l) ->
  exists a h, In (a, Some h) l /\ payout_allocationId p = alloc_id a.
Proof.
  rewrite in_flat_map. intros [[a o] [Hin Hp]].
  unfold payout_of in Hp; simpl in Hp. destruct o as [h|]; [|contradiction].
  destruct Hp as [<-|[]]. exists a, h. split; [assumption | reflexivity].
Qed.

Lemma netAmount_floor (a : allocation) :
  0 <= amount a -> netAmount a = amount a * (100 - FEE_PERCENT) / 100.
Proof.
  intros H. unfold netAmount, FEE_PERCENT.
  rewrite Z.quot_div_nonneg by lia. reflexivity.
Qed.

Lemma transfers_fee send i l :
  Forall (fun a => 0 < amount a) l ->
  Forall2
    (fun a t =>
       transfer_to t = alloc_applicant a
       /\ transfer_value t = amount a * (100 - FEE_PERCENT) / 100
       /\ (amount a = 1000000 ->
           transfer_value t = 950000 /\ amount a - transfer_value t = 50000))
    l (map transfer_of (attempts send i l)).
Proof.
  revert i. induction l as [|a r IH]; intros i Hpos; simpl; constructor.
  - inversion Hpos as [|? ? Ha _]; subst. simpl.
    rewrite netAmount_floor by lia.
    split; [reflexivity|]. split; [reflexivity|].
    intros ->. unfold FEE_PERCENT. split; reflexivity.
  - apply IH. now inversion Hpos.
Qed.

(** C8. The fee is the fixed 5 percent: each selected allocation is sent
    [floor (amount * 95 / 100)], so that a gross allocation of 1,000,000
    units is paid 950,000 net and 50,000 are retained; the totals of the
    record follow the same rate. *)
Theorem fee_five_percent wallet id send uuid st st' d s' ts :
  distribute wallet id send uuid st = (st', Distribute200 d s', ts) ->
  FEE_PERCENT = 5
  /\ (exists s,
        JsMap.get id (ships st) = Some s
        /\ Forall2
             (fun a t =>
                transfer_to t = alloc_applicant a
                /\ transfer_value t = amount a * (100 - FEE_PERCENT) / 100
                /\ (amount a = 1000000 ->
                    transfer_value t = 950000
                    /\ amount a - transfer_value t = 50000))
             (pendingAllocations s st) ts)
  /\ totalFee d = totalGross d * FEE_PERCENT / 100
  /\ totalNet d = totalGross d - totalFee d
  /\ (totalGross d = 1000000 -> totalFee d = 50000 /\ totalNet d = 950000).
Proof.
  intros H. split; [reflexivity|].
  destruct (distribute_200_totals _ _ _ _ _ _ _ _ _ H) as (Hf & Hn & Hg).
  destruct (distribute_200 _ _ _ _ _ _ _ _ _ H)
    as (s & G & _ & _ & Hts & _).
  split; [|split; [|split]].
  - exists s. split; [assumption|]. rewrite Hts.
    assert (Hpos : Forall (fun a => 0 < amount a) (pendingAllocations s st)).
    { apply Forall_forall. intros a Ha. apply pending_spec in Ha. tauto. }
    now apply transfers_fee.
  - rewrite Hf. unfold fee, FEE_PERCENT.
    apply Z.quot_div_nonneg; lia.
  - rewrite Hn, Hf. reflexivity.
  - intros E. rewrite Hn, Hf, E. split; reflexivity.
Qed.

Lemma fee_five_percent_witness :
  exists s,
    JsMap.get "ship-1" (ships Scenario.approved_million) = Some s
    /\ Forall2
         (fun a t =>
            transfer_to t = alloc_applicant a
            /\ transfer_value t = amount a * (100 - FEE_PERCENT) / 100
            /\ (amount a = 1000000 ->
                transfer_value t = 950000
                /\ amount a - transfer_value t = 50000))
         (pendingAllocations s Scenario.approved_million)
         [mkTransfer Scenario.applicant_address 950000 (Some "0xhash")].
Proof.
  exact (proj1 (proj2 (fee_five_percent true "ship-1" Scenario.paying "dist-1"
           Scenario.approved_million
           (fst (fst (distribute true "ship-1" Scenario.paying "dist-1"
                        Scenario.approved_million)))
           (mkDistribution "dist-1" "ship-1" (JStr "round") 1000000 50000
              950000
              [mkPayout "alloc-1" (JStr "project") Scenario.applicant_address
                        1000000 950000 "0xhash"])
           (set_status Distributing
              (set_distributed 950000
                 (set_allocated 1000000 Scenario.ship_funded)))
           [mkTransfer Scenario.applicant_address 950000 (Some "0xhash")]
           eq_refl))).
Defined.

(** The transfers of a call, whatever its answer. *)
Lemma distribute_transfers wallet id send uuid st s :
  JsMap.get id (ships st) = Some s -> wallet = true ->
  snd (distribute wallet id send uuid st)
  = map transfer_of (attempts send 0 (pendingAllocations s st)).
Proof.
  intros G Hw.
  destruct (pendingAllocations s st) as [|a l] eqn:Ep.
  - subst wallet. unfold distribute. now rewrite G, Ep.
  - rewrite <- Ep.
    assert (Hp : pendingAllocations s st <> []) by (rewrite Ep; discriminate).
    rewrite (distribute_run wallet id send uuid st s G Hw Hp).
    cbv zeta. format_cases; cbn [snd]; apply pay_transfers.
Qed.

Lemma transfers_of_selected (P : allocation -> Prop) send i l :
  Forall P l ->
  Forall2
    (fun a t =>
       P a /\ transfer_to t = alloc_applicant a
       /\ transfer_value t = netAmount a)
    l (map transfer_of (attempts send i l)).
Proof.
  revert i. induction l as [|a r IH]; intros i HP; simpl; constructor.
  - inversion HP; subst. repeat split. assumption.
  - apply IH. now inversion HP.
Qed.

(** What is pending once a run has marked what it paid. *)
Lemma pending_after_settle att s2 (l : list allocation) :
  filter (is_pending s2) (map (settle att) l)
  = filter (fun a => match paid_hash att (alloc_id a) with
                     | Some _ => false
                     | None => true
                     end)
           (filter (is_pending s2) l).
Proof.
  induction l as [|x r IH]; [reflexivity|].
  cbn [map filter].
  destruct (paid_hash att (alloc_id x)) as [h|] eqn:E.
  - assert (Es : settle att x = mark_distributed h x)
      by (unfold settle; now rewrite E).
    rewrite Es.
    replace (is_pending s2 (mark_distributed h x)) with false
      by (unfold is_pending; simpl; now rewrite andb_false_r).
    destruct (is_pending s2 x); [cbn [filter]; rewrite E|]; exact IH.
  - assert (Es : settle att x = x) by (unfold settle; now rewrite E).
    rewrite Es.
    destruct (is_pending s2 x); [cbn [filter]; rewrite E; f_equal|]; exact IH.
Qed.

Lemma pending_same_id s1 s2 st :
  ship_id s1 = ship_id s2 ->
  pendingAllocations s1 st = pendingAllocations s2 st.
Proof.
  intros E. unfold pendingAllocations. apply filter_ext.
  intros a. unfold is_pending. now rewrite E.
Qed.

Lemma none_selected (keep : allocation -> bool) (l : list allocation) :
  (forall a, In a l -> keep a = false) -> filter keep l = [].
Proof.
  induction l as [|a r IH]; intros H; [reflexivity|].
  cbn [filter]. rewrite (H a) by now left.
  apply IH. intros x Hx. apply H. now right.
Qed.

Lemma attempts_outcome send i l a :
  In a l -> exists j, In (a, send j) (attempts send i l).
Proof.
  revert i. induction l as [|b r IH]; intros i; simpl; [tauto|].
  intros [-> | H].
  - exists i. now left.
  - destruct (IH (S i) H) as [j Hj]. exists j. now right.
Qed.

(** C6. Distribution can be called again and again.  An allocation whose
    [distributed] flag is set is never selected; a call on a ship with
    nothing pending is answered 400 'No pending allocations to distribute'
    (500 when no wallet is configured), makes no transfer and changes
    nothing.  The transfers a call makes are one for each allocation it
    selected, in order, and each of these is stored with the flag unset.
    After a call answered 200, what is pending is what was pending before
    and was not paid by it; when every transfer of the call went through,
    calling again is answered 400 and changes nothing. *)
Theorem distribute_repeat_safe wallet id send uuid st :
  well_keyed st ->
  (forall s a, In a (JsMap.values (allocations st)) ->
               alloc_distributed a = true ->
               ~ In a (pendingAllocations s st))
  /\ (forall s, JsMap.get id (ships st) = Some s ->
                pendingAllocations s st = [] ->
                fst (distribute wallet id send uuid st)
                = (st, if wallet then Distribute400_nothing
                       else Distribute500_wallet)
                /\ snd (distribute wallet id send uuid st) = [])
  /\ (forall s, JsMap.get id (ships st) = Some s -> wallet = true ->
                Forall2
                  (fun a t =>
                     (In a (JsMap.values (allocations st))
                      /\ alloc_distributed a = false)
                     /\ transfer_to t = alloc_applicant a
                     /\ transfer_value t = netAmount a)
                  (pendingAllocations s st)
                  (snd (distribute wallet id send uuid st)))
  /\ (forall st' d s' ts,
        distribute wallet id send uuid st = (st', Distribute200 d s', ts) ->
        (forall s2,
           pendingAllocations s2 st'
           = filter (fun a =>
                       match paid_hash
                               (attempts send 0 (pendingAllocations s' st))
                               (alloc_id a) with
                       | Some _ => false
                       | None => true
                       end)
                    (pendingAllocations s2 st))
        /\ ((forall i, send i <> None) ->
            forall send2 uuid2,
              distribute wallet id send2 uuid2 st'
              = (st', Distribute400_nothing, []))).
Proof.
  intros (Ks & _ & K). split; [|split; [|split]].
  - intros s a _ Hd Hin. apply pending_spec in Hin.
    destruct Hin as (_ & _ & Hf & _). congruence.
  - intros s G Hp. unfold distribute. rewrite G, Hp.
    destruct wallet; split; reflexivity.
  - intros s G Hw.
    rewrite (distribute_transfers wallet id send uuid st s G Hw).
    apply transfers_of_selected. apply Forall_forall.
    intros a Ha. apply pending_spec in Ha. tauto.
  - intros st' d s' ts H.
    destruct (distribute_200_values _ _ _ _ _ _ _ _ _ K H) as (s & G & Hv).
    destruct (distribute_200 _ _ _ _ _ _ _ _ _ H)
      as (s0 & G0 & Hw & _ & _ & _ & _ & Hs' & Hships & _).
    rewrite G in G0. injection G0 as <-.
    assert (Eid : ship_id s' = ship_id s) by (rewrite Hs'; reflexivity).
    rewrite (pending_same_id s' s st Eid).
    assert (Hafter : forall s2,
               pendingAllocations s2 st'
               = filter (fun a =>
                           match paid_hash
                                   (attempts send 0 (pendingAllocations s st))
                                   (alloc_id a) with
                           | Some _ => false
                           | None => true
                           end)
                        (pendingAllocations s2 st)).
    { intros s2. unfold pendingAllocations at 1. rewrite Hv.
      apply pending_after_settle. }
    split; [exact Hafter|].
    intros Hsend send2 uuid2.
    assert (G' : JsMap.get id (ships st') = Some s').
    { rewrite Hships, (keyed_get _ _ _ _ Ks G). apply get_set_eq. }
    assert (Hnone : pendingAllocations s' st' = []).
    { rewrite Hafter, (pending_same_id s' s st Eid).
      pose proof (pending_ids_distinct s st K) as N.
      assert (Hall : forall a, In a (pendingAllocations s st) ->
                paid_hash (attempts send 0 (pendingAllocations s st))
                          (alloc_id a) <> None).
      { intros a Ha.
        destruct (attempts_outcome send 0 _ a Ha) as [j Hj].
        rewrite (paid_hash_attempt send 0 _ a (send j) N Hj). apply Hsend. }
      apply none_selected. intros a Ha. specialize (Hall a Ha).
      destruct (paid_hash _ (alloc_id a)); congruence. }
    unfold distribute. rewrite G', Hw, Hnone. reflexivity.
Qed.

Lemma distribute_repeat_safe_witness :
  distribute true "ship-1" Scenario.paying "dist-2" Scenario.paid_once
  = (Scenario.paid_once, Distribute400_nothing, [])
  /\ (exists a,
        JsMap.get "alloc-1" (allocations Scenario.paid_once) = Some a
        /\ alloc_distributed a = true)
  /\ Forall2
       (fun a t =>
          (In a (JsMap.values (allocations Scenario.approved_once))
           /\ alloc_distributed a = false)
          /\ transfer_to t = alloc_applicant a
          /\ transfer_value t = netAmount a)
       [Scenario.allocation_once]
       [mkTransfer Scenario.applicant_address 950000000000000000
                   (Some "0xhash")].
Proof.
  pose proof (distribute_repeat_safe true "ship-1" Scenario.paying "dist-1"
                Scenario.approved_once
                (reachable_well_keyed _ _ _ _ _ reachable_approved_once))
    as (_ & _ & Hts & Hagain).
  split; [|split].
  - refine (proj2 (Hagain Scenario.paid_once
                     (mkDistribution "dist-1" "ship-1" (JStr "round")
                        1000000000000000000 50000000000000000
                        950000000000000000
                        [mkPayout "alloc-1" (JStr "project")
                                  Scenario.applicant_address
                                  1000000000000000000 950000000000000000
                                  "0xhash"])
                     (set_status Distributing
                        (set_distributed 950000000000000000
                                         Scenario.ship_once))
                     [mkTransfer Scenario.applicant_address
                                 950000000000000000 (Some "0xhash")]
                     _) _ Scenario.paying "dist-2").
    + vm_compute. reflexivity.
    + intros i. discriminate.
  - exists (mark_distributed "0xhash" Scenario.allocation_once).
    split; vm_compute; reflexivity.
  - exact (Hts Scenario.ship_once eq_refl eq_refl).
Defined.

(** C5, refuted as stated: in [Scenario.approved_once] with a wallet whose
    transfer fails, the one pending allocation is attempted, yet the record
    returned has an empty [payouts]: no outcome is recorded for the failed
    payout, and the record does not cover the allocation attempted. *)
Lemma failed_payout_counterexample :
  pendingAllocations Scenario.ship_once Scenario.approved_once
  = [Scenario.allocation_once]
  /\ exists st' d s',
       distribute true "ship-1" Scenario.failing "dist-1"
                  Scenario.approved_once
       = (st', Distribute200 d s',
          [mkTransfer Scenario.applicant_address 950000000000000000 None])
       /\ payouts d = []
       /\ JsMap.get "alloc-1" (allocations st') = Some Scenario.allocation_once.
Proof.
  split; [vm_compute; reflexivity|].
  do 3 eexists. split; [vm_compute; reflexivity|].
  split; vm_compute; reflexivity.
Qed.

(** C5 (as amended). When a payout fails the allocation is left as it was,
    with [distributed = false], nothing is appended to [payouts] (the error
    is only logged), and the loop goes on: every selected allocation is
    attempted, in order, whatever became of the ones before.  The record
    returned covers exactly the allocations paid in this call: [payouts]
    holds one entry for each transfer that went through, in order, and none
    for a failed one; an allocation paid is stored with the flag set and
    the hash of its transaction. *)
Theorem distribute_partial_failure wallet id send uuid st st' d s' ts :
  keyed alloc_id (allocations st) ->
  distribute wallet id send uuid st = (st', Distribute200 d s', ts) ->
  exists s,
    JsMap.get id (ships st) = Some s
    /\ ts = map transfer_of (attempts send 0 (pendingAllocations s st))
    /\ payouts d = flat_map payout_of (attempts send 0 (pendingAllocations s st))
    /\ (forall a, In (a, None) (attempts send 0 (pendingAllocations s st)) ->
          alloc_distributed a = false
          /\ JsMap.get (alloc_id a) (allocations st') = Some a
          /\ forall p, In p (payouts d) -> payout_allocationId p <> alloc_id a)
    /\ (forall a h,
          In (a, Some h) (attempts send 0 (pendingAllocations s st)) ->
          JsMap.get (alloc_id a) (allocations st')
          = Some (mark_distributed h a)
          /\ In (mkPayout (alloc_id a) (alloc_projectName a)
                          (alloc_applicant a) (amount a) (netAmount a) h)
                (payouts d)).
Proof.
  intros K H.
  destruct (distribute_200_values _ _ _ _ _ _ _ _ _ K H) as (s & G & Hv).
  destruct (distribute_200 _ _ _ _ _ _ _ _ _ H)
    as (s0 & G0 & _ & _ & Hts & Hpay & _ & _ & _ & _ & Hal).
  rewrite G in G0. injection G0 as <-.
  assert (K' : keyed alloc_id (allocations st')).
  { rewrite Hal. apply pay_keyed. exact K. }
  pose proof (pending_ids_distinct s st K) as N.
  assert (Hget : forall a o,
             In (a, o) (attempts send 0 (pendingAllocations s st)) ->
             JsMap.get (alloc_id a) (allocations st')
             = Some (settle (attempts send 0 (pendingAllocations s st)) a)).
  { intros a o Hin.
    rewrite <- (settle_id (attempts send 0 (pendingAllocations s st)) a).
    apply (keyed_in_get alloc_id); [assumption|].
    rewrite Hv. apply in_map. apply attempts_in in Hin.
    apply pending_spec in Hin. tauto. }
  exists s. split; [assumption|]. split; [assumption|]. split; [assumption|].
  split.
  - intros a Hin.
    pose proof (paid_hash_attempt send 0 _ a None N Hin) as Hh.
    split; [|split].
    + apply attempts_in in Hin. apply pending_spec in Hin. tauto.
    + rewrite (Hget a None Hin). unfold settle. now rewrite Hh.
    + intros p Hp E. rewrite Hpay in Hp.
      destruct (payout_of_in _ _ Hp) as (b & h & Hb & Eb).
      pose proof (paid_hash_attempt send 0 _ b (Some h) N Hb) as Hb'.
      rewrite <- Eb, E, Hh in Hb'. discriminate.
  - intros a h Hin.
    pose proof (paid_hash_attempt send 0 _ a (Some h) N Hin) as Hh.
    split.
    + rewrite (Hget a (Some h) Hin). unfold settle. now rewrite Hh.
    + rewrite Hpay. apply in_flat_map. exists (a, Some h).
      split; [assumption | now left].
Qed.

Lemma distribute_partial_failure_witness :
  exists s,
    JsMap.get "ship-1" (ships Scenario.approved_once) = Some s
    /\ [mkTransfer Scenario.applicant_address 950000000000000000 None]
       = map transfer_of
             (attempts Scenario.failing 0
                       (pendingAllocations s Scenario.approved_once)).
Proof.
  destruct (distribute_partial_failure true "ship-1" Scenario.failing "dist-1"
              Scenario.approved_once
              (fst (fst (distribute true "ship-1" Scenario.failing "dist-1"
                           Scenario.approved_once)))
              (mkDistribution "dist-1" "ship-1" (JStr "round")
                 1000000000000000000 50000000000000000 950000000000000000 [])
              (set_status Distributing
                 (set_distributed 950000000000000000 Scenario.ship_once))
              [mkTransfer Scenario.applicant_address 950000000000000000 None]
              (proj2 (proj2 (reachable_well_keyed _ _ _ _ _
                               reachable_approved_once)))
              eq_refl)
    as (s & G & Hts & _).
  exists s. split; assumption.
Defined.

(** Transfers that fail are counted all the same.  In
    [Scenario.approved_once] the only transfer of the call fails: no payout
    succeeded, the net amounts paid sum to zero, and yet the ship's
    [distributed] goes from 0 to 0.95 ether, the net of the whole batch.  A
    second call whose transfer fails again adds the same amount once more:
    [distributed] is then 1.9 ether against 1 ether allocated, and the ship
    is marked completed with nothing paid. *)
Lemma failed_transfers_are_counted :
  (exists st' d s',
     distribute true "ship-1" Scenario.failing "dist-1" Scenario.approved_once
     = (st', Distribute200 d s',
        [mkTransfer Scenario.applicant_address 950000000000000000 None])
     /\ payouts d = []
     /\ paid_net (attempts Scenario.failing 0
                    (pendingAllocations Scenario.ship_once
                                        Scenario.approved_once)) = 0
     /\ distributed Scenario.ship_once = 0
     /\ distributed s' = 950000000000000000
     /\ status s' = Distributing)
  /\ (exists s'',
        JsMap.get "ship-1" (ships Scenario.failed_twice) = Some s''
        /\ allocated s'' = 1000000000000000000
        /\ distributed s'' = 1900000000000000000
        /\ status s'' = Completed)
  /\ Forall (fun a => alloc_distributed a = false)
            (JsMap.values (allocations Scenario.failed_twice)).
Proof.
  split; [|split].
  - do 3 eexists. split; [vm_compute; reflexivity|].
    repeat split; vm_compute; reflexivity.
  - eexists. split; [vm_compute; reflexivity|].
    repeat split; vm_compute; reflexivity.
  - vm_compute. repeat constructor.
Qed.

(** ** The writes of each handler *)

Lemma in_keys_set_mono {V : Type} (k x : string) (v : V) (m : JsMap.t V) :
  In x (JsMap.keys m) -> In x (JsMap.keys (JsMap.set k v m)).
Proof.
  induction m as [|[k' v'] r IH]; simpl; [tauto|].
  destruct (String.eqb k k') eqn:E; simpl.
  - apply String.eqb_eq in E. subst k'. tauto.
  - intros [H|H]; [now left | right; auto].
Qed.

Lemma settle_fields l x :
  alloc_shipId (settle l x) = alloc_shipId x /\ amount (settle l x) = amount x.
Proof.
  unfold settle. destruct (paid_hash l (alloc_id x)); split; reflexivity.
Qed.

Lemma createShip_cases isAddress body uuid st :
  fst (createShip isAddress body uuid st) = st
  \/ exists c,
       fst (createShip isAddress body uuid st)
       = with_ships (JsMap.set uuid (mkShip uuid (sb_name body) c 0 0 0 Open)
                               (ships st)) st.
Proof.
  unfold createShip. handler_cases; simpl; eauto.
Qed.

Lemma fund_cases treasury id txHash chain st :
  fst (fund treasury id txHash chain st) = st
  \/ exists s v,
       JsMap.get id (ships st) = Some s
       /\ fst (fund treasury id txHash chain st)
          = with_ships (JsMap.set (ship_id s) (set_budget (budget s + v) s)
                                  (ships st)) st.
Proof.
  unfold fund. handler_cases; simpl; eauto.
Qed.

Lemma allocate_cases parseEther id body uuid st :
  (ships (fst (allocate parseEther id body uuid st)) = ships st
   /\ allocations (fst (allocate parseEther id body uuid st)) = allocations st)
  \/ exists application ship w,
       JsMap.get id (applications st) = Some application
       /\ JsMap.get (app_shipId application) (ships st) = Some ship
       /\ approved body <> JBool false
       /\ parse_amount parseEther (body_amount body) = Some w
       /\ w <= budget ship - allocated ship
       /\ ships (fst (allocate parseEther id body uuid st))
          = JsMap.set (ship_id ship) (set_allocated (allocated ship + w) ship)
                      (ships st)
       /\ allocations (fst (allocate parseEther id body uuid st))
          = JsMap.set uuid
              (mkAllocation uuid (ship_id ship) (app_id application)
                            (app_projectName application)
                            (app_applicant application) w false None)
              (allocations st).
Proof.
  unfold allocate.
  destruct (JsMap.get id (applications st)) as [application|] eqn:Happ;
    [|now left].
  destruct (JsMap.get (app_shipId application) (ships st)) as [ship|] eqn:Hship;
    [|now left].
  destruct (opt_toLowerCase (captain body)); [|now left].
  destruct (negb (strict_eq a (JStr (ship_captain ship)))); [now left|].
  destruct (strict_eq (approved body) (JBool false)) eqn:Ea; [now left|].
  destruct (parse_amount parseEther (body_amount body)) as [w|] eqn:Hp;
    [|now left].
  destruct (w >? budget ship - allocated ship) eqn:E;
    [format_cases; now left|].
  destruct (formatETH w); [|now left].
  assert (approved body <> JBool false).
  { intros C. apply strict_eq_false_iff in C. congruence. }
  rewrite Z.gtb_ltb, Z.ltb_ge in E.
  right. exists application, ship, w.
  format_cases; cbn [fst ships allocations ship_id set_allocated alloc_id];
    auto 10.
Qed.

(** The allocations a payout loop leaves in a keyed map. *)
Lemma pay_values send s st :
  keyed alloc_id (allocations st) ->
  JsMap.values
    (run_allocations
       (pay send 0 (pendingAllocations s st) (mkRun (allocations st) [] [])))
  = map (settle (attempts send 0 (pendingAllocations s st)))
        (JsMap.values (allocations st)).
Proof.
  intros K.
  apply (pay_allocations send 0 (pendingAllocations s st)
                         (mkRun (allocations st) [] [])); simpl.
  - assumption.
  - intros a Hin. apply pending_spec in Hin. tauto.
  - now apply pending_ids_distinct.
Qed.

(** A distribution leaves the store as it found it, or it has paid and
    written the ship, and then either recorded the distribution or not. *)
Lemma distribute_cases wallet id send uuid st :
  fst (fst (distribute wallet id send uuid st)) = st
  \/ exists s,
       JsMap.get id (ships st) = Some s
       /\ pendingAllocations s st <> []
       /\ ships (fst (fst (distribute wallet id send uuid st)))
          = JsMap.set (ship_id s)
              (set_status
                 (if distributed s
                     + netTotal (totalToDistribute (pendingAllocations s st))
                     >=? allocated s
                  then Completed else Distributing)
                 (set_distributed
                    (distributed s
                     + netTotal (totalToDistribute (pendingAllocations s st)))
                    s))
              (ships st)
       /\ applications (fst (fst (distribute wallet id send uuid st)))
          = applications st
       /\ allocations (fst (fst (distribute wallet id send uuid st)))
          = run_allocations
              (pay send 0 (pendingAllocations s st)
                   (mkRun (allocations st) [] []))
       /\ (distributions (fst (fst (distribute wallet id send uuid st)))
           = distributions st
           \/ exists d,
                dist_shipId d = ship_id s
                /\ distributions (fst (fst (distribute wallet id send uuid st)))
                   = JsMap.set uuid d (distributions st)).
Proof.
  destruct (JsMap.get id (ships st)) as [s|] eqn:G;
    [| left; unfold distribute; now rewrite G].
  destruct wallet; [| left; unfold distribute; now rewrite G].
  destruct (pendingAllocations s st) as [|a l] eqn:Ep;
    [left; unfold distribute; now rewrite G, Ep|].
  assert (Hp : pendingAllocations s st <> []) by (rewrite Ep; discriminate).
  clear Ep. right. exists s.
  rewrite (distribute_run true id send uuid st s G eq_refl Hp).
  cbv zeta. split; [reflexivity|]. split; [assumption|].
  format_cases;
    cbn [fst ships applications allocations distributions];
    split_ands; try reflexivity; try (now left).
  all: right; eexists; (split; [|reflexivity]); reflexivity.
Qed.

(** C1, refuted as stated.  With the application of the scenario filed on a
    ship holding 2 ether, the captain approves the amount "-1": the
    allocation is accepted and the ship is left with [allocated] at minus 1
    ether, below its [distributed], which is 0.  The order also breaks when
    transfers fail: two distributions whose transfer fails leave
    [distributed] at 1.9 ether against 1 ether allocated. *)
Lemma budget_order_counterexample :
  (reachable Ethers.isAddress Ethers.parseEther Scenario.treasury true
             Scenario.approved_negative
   /\ exists s,
        JsMap.get "ship-1" (ships Scenario.approved_negative) = Some s
        /\ distributed s = 0 /\ allocated s = - 1000000000000000000
        /\ ~ budget_order s)
  /\ (reachable Ethers.isAddress Ethers.parseEther Scenario.treasury true
                Scenario.failed_twice
      /\ exists s,
           JsMap.get "ship-1" (ships Scenario.failed_twice) = Some s
           /\ distributed s = 1900000000000000000
           /\ allocated s = 1000000000000000000
           /\ ~ budget_order s).
Proof.
  split; split.
  - exact reachable_approved_negative.
  - exists (set_allocated (- 1000000000000000000) Scenario.ship_funded).
    split; [vm_compute; reflexivity|]. split; [reflexivity|].
    split; [reflexivity|]. unfold budget_order; simpl. lia.
  - eapply reachable_step; [| apply step_distribute].
    eapply reachable_step; [| apply step_distribute].
    exact reachable_approved_once.
  - exists (set_status Completed
              (set_distributed 1900000000000000000 Scenario.ship_once)).
    split; [vm_compute; reflexivity|]. split; [reflexivity|].
    split; [reflexivity|]. unfold budget_order; simpl. lia.
Qed.

(** C1 (as amended). For every ship and after every request served,
    whatever the requests were, [0 <= distributed], [0 <= budget] and
    [allocated <= budget]. *)
Theorem budget_order_invariant
  (isAddress : jsval -> bool) (parseEther : string -> option Z)
  (TREASURY_ADDRESS : string) (wallet : bool) (st : store) :
  reachable isAddress parseEther TREASURY_ADDRESS wallet st ->
  forall k s, JsMap.get k (ships st) = Some s ->
              0 <= distributed s /\ 0 <= budget s /\ allocated s <= budget s.
Proof.
  intros Hr k s G. apply get_in_values in G.
  destruct (reachable_budget_bounds _ _ _ _ _ Hr s G) as [H0 Hb].
  pose proof (reachable_budget_nonneg _ _ _ _ _ Hr s G) as Hn.
  simpl in Hn. auto.
Qed.

Lemma budget_order_invariant_witness :
  (0 <= distributed Scenario.ship_once
   /\ 0 <= budget Scenario.ship_once
   /\ allocated Scenario.ship_once <= budget Scenario.ship_once)
  /\ exists s,
       JsMap.get "ship-1" (ships Scenario.failed_twice) = Some s
       /\ 0 <= distributed s /\ 0 <= budget s /\ allocated s <= budget s.
Proof.
  split.
  - exact (budget_order_invariant Ethers.isAddress Ethers.parseEther
             Scenario.treasury true Scenario.approved_once
             reachable_approved_once "ship-1" Scenario.ship_once eq_refl).
  - exists (set_status Completed
              (set_distributed 1900000000000000000 Scenario.ship_once)).
    split; [vm_compute; reflexivity|].
    refine (budget_order_invariant Ethers.isAddress Ethers.parseEther
              Scenario.treasury true Scenario.failed_twice _ "ship-1" _ _).
    + eapply reachable_step; [| apply step_distribute].
      eapply reachable_step; [| apply step_distribute].
      exact reachable_approved_once.
    + vm_compute. reflexivity.
Defined.

(** ** What a distribution adds to [distributed] *)

Lemma payouts_all_paid send i l :
  (forall j, send j <> None) ->
  sum_net (flat_map payout_of (attempts send i l))
  = fold_right (fun a sum => netAmount a + sum) 0 l
  /\ List.length (flat_map payout_of (attempts send i l)) = List.length l.
Proof.
  intros Hsend. revert i. induction l as [|a r IH]; intros i; [now split|].
  destruct (IH (S i)) as [IH1 IH2].
  cbn [attempts flat_map]. unfold payout_of at 1 3. cbn [fst snd].
  destruct (send i) as [h|] eqn:E; [|exfalso; now apply (Hsend i)].
  cbn [app sum_net fold_right List.length net].
  unfold sum_net in IH1. rewrite IH1, IH2. now split.
Qed.

(** The nets of the allocations of a batch against 95 percent of its
    total: each division rounds down by less than one unit. *)
Lemma nets_against_total (l : list allocation) :
  (forall a, In a l -> 0 < amount a) ->
  100 * fold_right (fun a sum => netAmount a + sum) 0 l
  <= 95 * totalToDistribute l
  <= 100 * fold_right (fun a sum => netAmount a + sum) 0 l
     + 99 * Z.of_nat (List.length l).
Proof.
  induction l as [|a r IH]; intros Hpos.
  - unfold totalToDistribute. simpl. lia.
  - rewrite totalToDistribute_cons. cbn [fold_right List.length].
    assert (Ha : 0 < amount a) by (apply Hpos; now left).
    assert (IH' := IH (fun x Hx => Hpos x (or_intror Hx))).
    unfold netAmount at 1 3. rewrite Z.quot_div_nonneg by lia.
    pose proof (Z.div_mod (amount a * 95) 100 ltac:(lia)) as Hdm.
    pose proof (Z.mod_pos_bound (amount a * 95) 100 ltac:(lia)) as Hm.
    rewrite Nat2Z.inj_succ. lia.
Qed.

Lemma netTotal_against_total (total : Z) :
  0 <= total -> 95 * total <= 100 * netTotal total <= 95 * total + 99.
Proof.
  intros H. unfold netTotal, fee, FEE_PERCENT.
  rewrite Z.quot_div_nonneg by lia.
  pose proof (Z.div_mod (total * 5) 100 ltac:(lia)) as Hdm.
  pose proof (Z.mod_pos_bound (total * 5) 100 ltac:(lia)) as Hm.
  lia.
Qed.

(** C2, refuted as stated: in [Scenario.approved_four] the one pending
    allocation, of 4 wei, is paid; the payout that succeeded has a net
    amount of 3 wei, and [distributed] goes from 0 to 4, the net total of
    the batch, which marks the ship completed. *)
Lemma distributed_increment_counterexample :
  exists st' d s',
    distribute true "ship-1" Scenario.paying "dist-1" Scenario.approved_four
    = (st', Distribute200 d s',
       [mkTransfer Scenario.applicant_address 3 (Some "0xhash")])
    /\ sum_net (payouts d) = 3
    /\ distributed Scenario.ship_four = 0
    /\ distributed s' = 4
    /\ distributed s' <> distributed Scenario.ship_four + sum_net (payouts d)
    /\ status s' = Completed.
Proof.
  do 3 eexists. split; [vm_compute; reflexivity|].
  repeat split; try (vm_compute; reflexivity).
  vm_compute. discriminate.
Qed.

(** C2 (as amended). After a distribution in which every transfer went
    through, the ship's [distributed] has grown by the net total of the
    batch, [totalNet = totalGross - floor (totalGross * 5 / 100)], taken on
    the sum of the selected amounts; this is at least the sum of the net
    amounts paid and exceeds it by at most one unit per payout.  The status
    is then completed if [distributed >= allocated], and distributing
    otherwise. *)
Theorem distribute_adds_net_total wallet id send uuid st st' d s' ts :
  distribute wallet id send uuid st = (st', Distribute200 d s', ts) ->
  (forall i, send i <> None) ->
  exists s,
    JsMap.get id (ships st) = Some s
    /\ JsMap.get (ship_id s) (ships st') = Some s'
    /\ distributed s' = distributed s + totalNet d
    /\ totalNet d = totalGross d - totalGross d * FEE_PERCENT / 100
    /\ totalGross d = totalToDistribute (pendingAllocations s st)
    /\ sum_net (payouts d) <= totalNet d
       <= sum_net (payouts d) + Z.of_nat (List.length (payouts d))
    /\ status s' = (if distributed s' >=? allocated s'
                    then Completed else Distributing)
    /\ allocated s' = allocated s /\ budget s' = budget s.
Proof.
  intros H Hsend.
  destruct (distribute_200_totals _ _ _ _ _ _ _ _ _ H) as (Hf & Hn & Hg).
  destruct (distribute_200 _ _ _ _ _ _ _ _ _ H)
    as (s & G & _ & _ & _ & Hpay & Hgross & Hs' & Hships & _).
  exists s. split; [assumption|].
  split; [rewrite Hships; apply get_set_eq|].
  rewrite Hn, Hgross. split; [rewrite Hs'; reflexivity|].
  split.
  { unfold netTotal, fee. rewrite Z.quot_div_nonneg; [reflexivity | | lia].
    rewrite <- Hgross. unfold FEE_PERCENT. lia. }
  split; [reflexivity|]. split.
  { destruct (payouts_all_paid send 0 (pendingAllocations s st) Hsend)
      as [E1 E2].
    rewrite Hpay, E1, E2.
    assert (Hpos : forall a, In a (pendingAllocations s st) -> 0 < amount a).
    { intros a Ha. apply pending_spec in Ha. tauto. }
    pose proof (nets_against_total _ Hpos) as Hnets.
    rewrite Hgross in Hg.
    pose proof (netTotal_against_total _ Hg) as Htot.
    lia. }
  rewrite Hs'. simpl. repeat split.
Qed.

Lemma distribute_adds_net_total_witness :
  exists s,
    JsMap.get "ship-1" (ships Scenario.approved_four) = Some s
    /\ 4 = distributed s + 4.
Proof.
  destruct (distribute_adds_net_total true "ship-1" Scenario.paying "dist-1"
              Scenario.approved_four
              (fst (fst (distribute true "ship-1" Scenario.paying "dist-1"
                           Scenario.approved_four)))
              (mkDistribution "dist-1" "ship-1" (JStr "round") 4 0 4
                 [mkPayout "alloc-1" (JStr "project")
                           Scenario.applicant_address 4 3 "0xhash"])
              (set_status Completed (set_distributed 4 Scenario.ship_four))
              [mkTransfer Scenario.applicant_address 3 (Some "0xhash")]
              eq_refl ltac:(discriminate))
    as (s & G & _ & Hd & _).
  exists s. split; [exact G | exact Hd].
Defined.

(** * Further properties of the handlers *)

(** X6. A request answered 400, 403 or 404 has changed nothing: whenever
    one of the five handlers answers with a status from 400 to 499, the
    store it leaves is the store it found; a distribution so answered, or
    answered 500 for the missing wallet, has made no transfer either.  (A
    500 of the other handlers is not among these: of a decision it can come
    after the writes.) *)
Theorem refused_requests_change_nothing
  (isAddress : jsval -> bool) (parseEther : string -> option Z)
  (TREASURY_ADDRESS : string) (wallet : bool) (st : store) :
  (forall body uuid,
     400 <= ships_code (snd (createShip isAddress body uuid st)) < 500 ->
     fst (createShip isAddress body uuid st) = st)
  /\ (forall id txHash chain,
        400 <= fund_code (snd (fund TREASURY_ADDRESS id txHash chain st)) < 500 ->
        fst (fund TREASURY_ADDRESS id txHash chain st) = st)
  /\ (forall id body uuid,
        400 <= apply_code (snd (apply isAddress parseEther id body uuid st))
        < 500 ->
        fst (apply isAddress parseEther id body uuid st) = st)
  /\ (forall id body uuid,
        400 <= allocate_code (snd (allocate parseEther id body uuid st)) < 500 ->
        fst (allocate parseEther id body uuid st) = st)
  /\ (forall id send uuid code,
        distribute_code (snd (fst (distribute wallet id send uuid st)))
        = Some code ->
        400 <= code ->
        fst (fst (distribute wallet id send uuid st)) = st
        /\ snd (distribute wallet id send uuid st) = []).
Proof.
  split; [|split; [|split; [|split]]].
  - intros body uuid. unfold createShip.
    handler_cases; simpl; intros H; try reflexivity; lia.
  - intros id txHash chain. unfold fund.
    handler_cases; simpl; intros H; try reflexivity; lia.
  - intros id body uuid. unfold apply.
    handler_cases; simpl; intros H; try reflexivity; lia.
  - intros id body uuid. unfold allocate.
    handler_cases; simpl; intros H; try reflexivity; lia.
  - intros id send uuid code. unfold distribute.
    destruct (JsMap.get id (ships st)) as [s|]; [|now split].
    destruct (negb wallet); [now split|].
    destruct (pendingAllocations s st); [now split|].
    cbv zeta. format_cases; cbn [fst snd distribute_code]; intros H;
      try discriminate.
    injection H as <-. lia.
Qed.

Lemma refused_requests_change_nothing_witness :
  fst (allocate Ethers.parseEther "app-1"
         (Scenario.decision (JStr "3") (JBool true)) "alloc-1"
         Scenario.applied)
  = Scenario.applied.
Proof.
  refine (proj1 (proj2 (proj2 (proj2
            (refused_requests_change_nothing Ethers.isAddress
               Ethers.parseEther Scenario.treasury true Scenario.applied))))
            "app-1" (Scenario.decision (JStr "3") (JBool true)) "alloc-1" _).
  vm_compute. split; [discriminate | reflexivity].
Defined.

Lemma not_to_treasury_false treasury tx :
  not_to_treasury treasury tx = false <->
  exists a, tx_to tx = Some a /\ eq_ignore_case a treasury.
Proof.
  unfold not_to_treasury, eq_ignore_case. destruct (tx_to tx) as [a|].
  - rewrite negb_false_iff, String.eqb_eq. split.
    + intros H. now exists a.
    + intros (b & E & H). now injection E as ->.
  - split; [discriminate | intros (a & E & _); discriminate].
Qed.

Lemma fund_ok treasury id txHash tx st s :
  JsMap.get id (ships st) = Some s ->
  truthy txHash = true ->
  not_to_treasury treasury tx = false ->
  fund treasury id txHash (ChainReply (Some tx) (Some (Some 1))) st
  = (with_ships
       (JsMap.set (ship_id s)
                  (set_budget (budget s + Z.of_N (tx_value tx)) s) (ships st))
       st,
     Fund200 (set_budget (budget s + Z.of_N (tx_value tx)) s)
             (Z.of_N (tx_value tx))).
Proof.
  intros G Ht Hto. unfold fund. rewrite G, Ht, Hto. reflexivity.
Qed.

Lemma fund_200 treasury id txHash chain st s' funded :
  snd (fund treasury id txHash chain st) = Fund200 s' funded ->
  exists s tx,
    JsMap.get id (ships st) = Some s /\ truthy txHash = true
    /\ chain = ChainReply (Some tx) (Some (Some 1))
    /\ not_to_treasury treasury tx = false
    /\ funded = Z.of_N (tx_value tx)
    /\ s' = set_budget (budget s + funded) s.
Proof.
  unfold fund.
  destruct (JsMap.get id (ships st)) as [s|]; [|discriminate].
  destruct (truthy txHash); [|discriminate]. simpl.
  destruct chain as [|[tx|] [[n|]|]]; try discriminate.
  simpl. destruct (n =? 1) eqn:En; [|discriminate]. simpl.
  destruct (not_to_treasury treasury tx) eqn:Et; [discriminate|].
  simpl. intros H. injection H as <- <-.
  apply Z.eqb_eq in En. subst n. exists s, tx. repeat split. exact Et.
Qed.

(** X1. A budget is credited exactly when the ship exists, a transaction
    hash is given, the provider knows the transaction and its receipt with
    status 1, and the transaction went to the treasury address, compared up
    to case.  The ship's budget then grows by the value of the transaction,
    nothing else of it changes, and no other ship, application or
    allocation is touched. *)
Theorem fund_credits_exactly treasury id txHash chain st :
  well_keyed st ->
  (forall s' funded,
     snd (fund treasury id txHash chain st) = Fund200 s' funded <->
     exists s tx a,
       JsMap.get id (ships st) = Some s /\ truthy txHash = true
       /\ chain = ChainReply (Some tx) (Some (Some 1))
       /\ tx_to tx = Some a /\ eq_ignore_case a treasury
       /\ funded = Z.of_N (tx_value tx)
       /\ s' = set_budget (budget s + funded) s)
  /\ (forall s' funded,
        snd (fund treasury id txHash chain st) = Fund200 s' funded ->
        JsMap.get id (ships (fst (fund treasury id txHash chain st))) = Some s'
        /\ (forall k, k <> id ->
              JsMap.get k (ships (fst (fund treasury id txHash chain st)))
              = JsMap.get k (ships st))
        /\ applications (fst (fund treasury id txHash chain st))
           = applications st
        /\ allocations (fst (fund treasury id txHash chain st))
           = allocations st
        /\ distributions (fst (fund treasury id txHash chain st))
           = distributions st).
Proof.
  intros (Ks & _ & _). split.
  - intros s' funded. split.
    + intros H. destruct (fund_200 _ _ _ _ _ _ _ H)
        as (s & tx & G & Ht & Ec & Hto & Ef & Es).
      apply not_to_treasury_false in Hto. destruct Hto as (a & Ea & Hi).
      exists s, tx, a. auto 10.
    + intros (s & tx & a & G & Ht & -> & Ea & Hi & -> & ->).
      rewrite (fund_ok treasury id txHash tx st s G Ht); [reflexivity|].
      apply not_to_treasury_false. eauto.
  - intros s' funded H.
    destruct (fund_200 _ _ _ _ _ _ _ H)
      as (s & tx & G & Ht & -> & Hto & -> & ->).
    rewrite (fund_ok treasury id txHash tx st s G Ht Hto). simpl.
    rewrite (keyed_get _ _ _ _ Ks G).
    split; [apply get_set_eq|]. split; [|auto].
    intros k Hk. now apply get_set_other.
Qed.

Lemma fund_credits_exactly_witness :
  JsMap.get "ship-1" (ships Scenario.funded) = Some Scenario.ship_funded.
Proof.
  refine (proj1 (proj2 (fund_credits_exactly Scenario.treasury "ship-1"
            (JStr "0xfeed")
            (ChainReply
               (Some (mkTransaction (Some Scenario.treasury)
                                    2000000000000000000%N))
               (Some (Some 1)))
            Scenario.created _)
          Scenario.ship_funded 2000000000000000000 eq_refl)).
  repeat split; repeat constructor. intros [].
Defined.

(** X2. Nothing remembers the transactions already credited: the same
    transaction submitted a second time is credited a second time, and the
    budget has then grown by twice its value. *)
Theorem fund_replay_credits_again treasury id txHash tx a st s :
  well_keyed st ->
  JsMap.get id (ships st) = Some s ->
  truthy txHash = true ->
  tx_to tx = Some a -> eq_ignore_case a treasury ->
  let reply := ChainReply (Some tx) (Some (Some 1)) in
  let once := fst (fund treasury id txHash reply st) in
  exists s2,
    fund treasury id txHash reply once
    = (with_ships (JsMap.set id s2 (ships once)) once,
       Fund200 s2 (Z.of_N (tx_value tx)))
    /\ JsMap.get id (ships (fst (fund treasury id txHash reply once)))
       = Some s2
    /\ budget s2 = budget s + 2 * Z.of_N (tx_value tx).
Proof.
  intros (Ks & _ & _) G Ht Ea Hi reply once.
  assert (Hto : not_to_treasury treasury tx = false)
    by (apply not_to_treasury_false; eauto).
  pose proof (keyed_get _ _ _ _ Ks G) as Eid.
  assert (G1 : JsMap.get id (ships once)
               = Some (set_budget (budget s + Z.of_N (tx_value tx)) s)).
  { subst once reply. rewrite (fund_ok treasury id txHash tx st s G Ht Hto).
    simpl. rewrite Eid. apply get_set_eq. }
  exists (set_budget (budget s + Z.of_N (tx_value tx) + Z.of_N (tx_value tx))
                     (set_budget (budget s + Z.of_N (tx_value tx)) s)).
  subst reply. rewrite (fund_ok treasury id txHash tx once _ G1 Ht Hto).
  cbn [fst ships with_ships ship_id set_budget budget]. rewrite Eid.
  split; [reflexivity|]. split; [apply get_set_eq | lia].
Qed.

Lemma fund_replay_credits_again_witness :
  exists s2,
    JsMap.get "ship-1"
      (ships (fst (fund Scenario.treasury "ship-1" (JStr "0xfeed")
                     (ChainReply
                        (Some (mkTransaction (Some Scenario.treasury)
                                             2000000000000000000%N))
                        (Some (Some 1)))
                     Scenario.funded)))
    = Some s2
    /\ budget s2 = 0 + 2 * 2000000000000000000.
Proof.
  destruct (fund_replay_credits_again Scenario.treasury "ship-1"
              (JStr "0xfeed")
              (mkTransaction (Some Scenario.treasury) 2000000000000000000%N)
              Scenario.treasury Scenario.created
              (mkShip "ship-1" (JStr "round")
                      "0xabcdefabcdefabcdefabcdefabcdefabcdefabcd" 0 0 0 Open))
    as (s2 & _ & G & Hb); try reflexivity.
  - repeat split; repeat constructor. intros [].
  - exists s2. split; [exact G | exact Hb].
Defined.

(** X3. A ship is created exactly when a name is given and the captain is a
    non-empty string that [isAddress] accepts.  It is stored under the uuid
    drawn, open, with budget, allocated and distributed at zero and the
    captain in lower case; every other ship, and every application and
    allocation, is left as it was. *)
Theorem createShip_registers isAddress body uuid st :
  (forall s,
     snd (createShip isAddress body uuid st) = Ships201 s <->
     exists c,
       truthy (sb_name body) = true /\ sb_captain body = JStr c
       /\ c <> "" /\ isAddress (JStr c) = true
       /\ s = mkShip uuid (sb_name body) (toLowerCase c) 0 0 0 Open)
  /\ (forall s,
        snd (createShip isAddress body uuid st) = Ships201 s ->
        JsMap.get uuid (ships (fst (createShip isAddress body uuid st)))
        = Some s
        /\ (forall k, k <> uuid ->
              JsMap.get k (ships (fst (createShip isAddress body uuid st)))
              = JsMap.get k (ships st))
        /\ applications (fst (createShip isAddress body uuid st))
           = applications st
        /\ allocations (fst (createShip isAddress body uuid st))
           = allocations st).
Proof.
  split.
  - intros s. unfold createShip. split.
    + destruct (truthy (sb_name body)) eqn:Hn; [|discriminate].
      destruct (truthy (sb_captain body)) eqn:Hc; [|discriminate].
      simpl. destruct (isAddress (sb_captain body)) eqn:Ha; [|discriminate].
      simpl. destruct (sb_captain body) as [| | | |c] eqn:Ec;
        simpl; try discriminate.
      intros H. injection H as <-. exists c. repeat split; try assumption.
      intros ->. simpl in Hc. discriminate.
    + intros (c & Hn & Ec & Hne & Ha & ->). rewrite Hn, Ec. simpl.
      destruct (String.eqb c "") eqn:E;
        [apply String.eqb_eq in E; contradiction|].
      simpl. rewrite Ha. reflexivity.
  - intros s. unfold createShip. handler_cases; try discriminate.
    simpl. intros H. injection H as <-. simpl.
    split; [apply get_set_eq|]. split; [|auto].
    intros k Hk. now apply get_set_other.
Qed.

Lemma createShip_registers_witness :
  JsMap.get "ship-1" (ships Scenario.created)
  = Some (mkShip "ship-1" (JStr "round")
                 "0xabcdefabcdefabcdefabcdefabcdefabcdefabcd" 0 0 0 Open).
Proof.
  exact (proj1 (proj2 (createShip_registers Ethers.isAddress
                         (mkShipBody (JStr "round")
                                     (JStr Scenario.captain_address))
                         "ship-1" empty_store)
                      _ eq_refl)).
Defined.




Lemma closeExpired_get expired st k :
  JsMap.get k (ships (closeExpired expired st))
  = match JsMap.get k (ships st) with
    | Some s => Some match status s with
                     | Open => if expired s then set_status Closed s else s
                     | _ => s
                     end
    | None => None
    end.
Proof.
  unfold closeExpired. cbn [ships with_ships].
  induction (ships st) as [|[k' x] r IH]; [reflexivity|].
  cbn [map JsMap.get fst snd]. destruct (String.eqb k k'); [reflexivity|].
  exact IH.
Qed.

Lemma step_keeping_step isAddress parseEther treasury wallet k st st' :
  step_keeping isAddress parseEther treasury wallet k st st' ->
  step isAddress parseEther treasury wallet st st'.
Proof.
  intros H. destruct H; constructor.
Qed.

(** A ship that is not open stays so under its id, as long as no ship is
    created under that id. *)
Lemma step_keeping_closed isAddress parseEther treasury wallet k st st' :
  step_keeping isAddress parseEther treasury wallet k st st' ->
  keyed ship_id (ships st) ->
  (exists s, JsMap.get k (ships st) = Some s /\ status s <> Open) ->
  exists s, JsMap.get k (ships st') = Some s /\ status s <> Open.
Proof.
  intros Hs Ks (s & G & Hn).
  assert (Hset : forall k0 s0 s1,
             JsMap.get k0 (ships st) = Some s0 ->
             (k0 = k -> status s1 <> Open) ->
             exists x, JsMap.get k (JsMap.set (ship_id s0) s1 (ships st))
                       = Some x /\ status x <> Open).
  { intros k0 s0 s1 G0 Hst.
    rewrite (keyed_get _ _ _ _ Ks G0).
    destruct (String.eqb k k0) eqn:E.
    - apply String.eqb_eq in E. subst k0. rewrite get_set_eq.
      exists s1. split; [reflexivity | now apply Hst].
    - apply String.eqb_neq in E. rewrite get_set_other by assumption.
      exists s. now split. }
  destruct Hs.
  - destruct (createShip_cases isAddress body uuid st) as [-> | [c ->]].
    + exists s. now split.
    + cbn [ships with_ships]. rewrite get_set_other by congruence.
      exists s. now split.
  - rewrite closeExpired_get, G. eexists. split; [reflexivity|].
    destruct (status s) eqn:Es; try congruence.
  - destruct (fund_cases treasury id txHash chain st)
      as [-> | (s0 & v & G0 & ->)]; [exists s; now split|].
    cbn [ships with_ships]. apply (Hset id s0 _ G0).
    intros ->. rewrite G in G0. injection G0 as <-. exact Hn.
  - rewrite apply_ships. exists s. now split.
  - destruct (allocate_cases parseEther id body uuid st)
      as [[-> _] | (application & s0 & w & _ & G0 & _ & _ & _ & -> & _)];
      [exists s; now split|].
    apply (Hset _ s0 _ G0).
    intros E. rewrite E, G in G0. injection G0 as <-. exact Hn.
  - destruct (distribute_cases wallet id send uuid st)
      as [-> | (s0 & G0 & _ & -> & _)]; [exists s; now split|].
    apply (Hset id s0 _ G0).
    intros _. cbn [status set_status]. destruct (_ >=? _); discriminate.
Qed.

(** X5. A distribution closes the ship to applications for good: once a
    distribution was answered 200 the ship is distributing or completed,
    and an application to it is refused with 400, whatever it says, in the
    store the distribution leaves and in every store that comes after it,
    as long as no ship is created under the same id. *)
Theorem distribute_closes_applications
  isAddress parseEther treasury wallet id send uuid st st' d s' ts :
  well_keyed st ->
  distribute wallet id send uuid st = (st', Distribute200 d s', ts) ->
  JsMap.get id (ships st') = Some s'
  /\ (status s' = Distributing \/ status s' = Completed)
  /\ forall st'',
       later isAddress parseEther treasury wallet id st' st'' ->
       forall body uuid',
         apply isAddress parseEther id body uuid' st''
         = (st'', Apply400_closed).
Proof.
  intros K H.
  assert (K' : well_keyed st').
  { replace st' with (fst (fst (distribute wallet id send uuid st)))
      by now rewrite H.
    apply (step_well_keyed isAddress parseEther treasury wallet st);
      [constructor | assumption]. }
  destruct K as (Ks & _ & _).
  destruct (distribute_200 _ _ _ _ _ _ _ _ _ H)
    as (s & G & _ & _ & _ & _ & _ & Hs' & Hships & _).
  assert (G' : JsMap.get id (ships st') = Some s').
  { rewrite Hships, (keyed_get _ _ _ _ Ks G). apply get_set_eq. }
  assert (Hst : status s' = Distributing \/ status s' = Completed).
  { rewrite Hs'. simpl. destruct (_ >=? _); auto. }
  split; [assumption|]. split; [assumption|].
  intros st'' Hl.
  assert (Hinv : well_keyed st''
                 /\ exists x, JsMap.get id (ships st'') = Some x
                              /\ status x <> Open).
  { induction Hl as [|st1 st2 _ [K1 IH] Hs].
    - split; [assumption|]. exists s'. split; [assumption|].
      destruct Hst as [-> | ->]; discriminate.
    - split.
      + eapply step_well_keyed; [eapply step_keeping_step; eauto | assumption].
      + eapply step_keeping_closed; eauto. apply K1. }
  destruct Hinv as (_ & x & Gx & Hx).
  intros body uuid'. unfold apply. rewrite Gx.
  destruct (status x); [contradiction | reflexivity..].
Qed.

Lemma distribute_closes_applications_witness :
  let later_on :=
    fst (fund Scenario.treasury "ship-1" (JStr "0xfeed")
           (ChainReply
              (Some (mkTransaction (Some Scenario.treasury)
                                   2000000000000000000%N))
              (Some (Some 1)))
           Scenario.paid_once) in
  apply Ethers.isAddress Ethers.parseEther "ship-1"
        (mkApplyBody (JStr Scenario.applicant_address) (JStr "late")
                     JUndefined JUndefined JUndefined)
        "app-2" later_on
  = (later_on, Apply400_closed).
Proof.
  cbv zeta.
  refine (proj2 (proj2 (distribute_closes_applications
            Ethers.isAddress Ethers.parseEther Scenario.treasury
            true "ship-1" Scenario.paying
            "dist-1" Scenario.approved_once Scenario.paid_once
            (mkDistribution "dist-1" "ship-1" (JStr "round")
               1000000000000000000 50000000000000000 950000000000000000
               [mkPayout "alloc-1" (JStr "project")
                         Scenario.applicant_address 1000000000000000000
                         950000000000000000 "0xhash"])
            (set_status Distributing
               (set_distributed 950000000000000000 Scenario.ship_once))
            [mkTransfer Scenario.applicant_address 950000000000000000
                        (Some "0xhash")]
            (reachable_well_keyed _ _ _ _ _ reachable_approved_once) _))
            _ _ _ _).
  - vm_compute. reflexivity.
  - eapply later_step; [apply later_now | apply keeping_fund].
Defined.



(** X8. Decisions served one after the other see each other's writes: once
    an approval of [w1] went through, a decision on any application of the
    same ship has its amount measured against [budget - allocated - w1].
    An amount above that is answered 400 'Insufficient budget' carrying
    that remainder, and changes nothing.  ([w1] may be negative, and the
    remainder is then larger than before; the amounts are such as
    [formatETH] renders, and so is the remainder.) *)
Theorem second_approval_sees_first
  parseEther id1 id2 body1 body2 uuid1 uuid2 st application1 application2
  ship w1 w2 :
  well_keyed st ->
  JsMap.get id1 (applications st) = Some application1 ->
  JsMap.get (app_shipId application1) (ships st) = Some ship ->
  is_captain body1 ship -> approved body1 <> JBool false ->
  parse_amount parseEther (body_amount body1) = Some w1 ->
  formatETH w1 = Returned w1 ->
  w1 <= budget ship - allocated ship ->
  budget ship - allocated ship - w1 < 2 ^ 511 ->
  let st1 := fst (allocate parseEther id1 body1 uuid1 st) in
  JsMap.get id2 (applications st1) = Some application2 ->
  app_shipId application2 = app_shipId application1 ->
  is_captain body2 ship -> approved body2 <> JBool false ->
  parse_amount parseEther (body_amount body2) = Some w2 ->
  formatETH w2 = Returned w2 ->
  w2 > budget ship - allocated ship - w1 ->
  allocate parseEther id2 body2 uuid2 st1
  = (st1, Allocate400_budget (budget ship - allocated ship - w1) w2).
Proof.
  intros (Ks & _ & _) Happ1 Hship Hc1 Ha1 Hp1 Hf1 Hw1 Hlt st1 Happ2 Esh
         Hc2 Ha2 Hp2 Hf2 Hw2.
  assert (Hship1 : JsMap.get (app_shipId application2) (ships st1)
                   = Some (set_allocated (allocated ship + w1) ship)).
  { subst st1.
    rewrite (allocate_approve parseEther id1 uuid1 body1 st application1 ship
               Happ1 Hship w1 Hc1 Ha1 Hp1 Hw1 Hf1).
    cbn [fst ships].
    rewrite Esh, <- (keyed_get _ _ _ _ Ks Hship). apply get_set_eq. }
  rewrite (allocate_insufficient parseEther id2 uuid2 body2 st1 application2
             (set_allocated (allocated ship + w1) ship) Happ2 Hship1 w2
             Hc2 Ha2 Hp2);
    cbn [budget allocated set_allocated]; [|lia].
  replace (budget ship - (allocated ship + w1))
    with (budget ship - allocated ship - w1) by lia.
  rewrite Hf2, formatETH_range; [reflexivity|].
  split; [|assumption].
  assert (- 2 ^ 511 <= 0) by (apply Z.opp_nonpos_nonneg, Z.pow_nonneg; lia).
  lia.
Qed.

Lemma second_approval_sees_first_witness :
  allocate Ethers.parseEther "app-1"
           (Scenario.decision (JStr "1.5") (JBool true)) "alloc-2"
           Scenario.approved_once
  = (Scenario.approved_once,
     Allocate400_budget (2000000000000000000 - 0 - 1000000000000000000)
                        1500000000000000000).
Proof.
  refine (second_approval_sees_first Ethers.parseEther "app-1" "app-1"
            (Scenario.decision (JStr "1") (JBool true))
            (Scenario.decision (JStr "1.5") (JBool true))
            "alloc-1" "alloc-2" Scenario.applied
            Scenario.application_pending Scenario.application_approved
            Scenario.ship_funded 1000000000000000000 1500000000000000000
            (reachable_well_keyed _ _ _ _ _ reachable_applied)
            eq_refl eq_refl eq_refl _ eq_refl eq_refl _ _ _ eq_refl eq_refl _
            eq_refl eq_refl _).
  - discriminate.
  - simpl. lia.
  - vm_compute. reflexivity.
  - vm_compute. reflexivity.
  - discriminate.
  - simpl. lia.
Defined.




Lemma netAmount_nonneg (a : allocation) : 0 < amount a -> 0 <= netAmount a.
Proof.
  intros H. unfold netAmount. apply Z.quot_pos; lia.
Qed.

Lemma sent_total_attempts send i l :
  sent_total (map transfer_of (attempts send i l))
  = paid_net (attempts send i l)
  /\ sum_net (flat_map payout_of (attempts send i l))
     = paid_net (attempts send i l).
Proof.
  revert i. induction l as [|a r IH]; intros i; [now split|].
  destruct (IH (S i)) as [IH1 IH2].
  cbn [attempts map flat_map sent_total paid_net fold_right].
  unfold payout_of at 1. cbn [fst snd transfer_of transfer_hash transfer_value].
  unfold sent_total, paid_net, sum_net in *.
  destruct (send i) as [h|]; cbn [app fold_right net]; rewrite ?IH1, ?IH2;
    now split.
Qed.

Lemma paid_net_le_nets send i l :
  (forall a, In a l -> 0 < amount a) ->
  paid_net (attempts send i l)
  <= fold_right (fun a sum => netAmount a + sum) 0 l.
Proof.
  revert i. induction l as [|a r IH]; intros i Hpos; [simpl; lia|].
  assert (Ha : 0 <= netAmount a) by (apply netAmount_nonneg, Hpos; now left).
  assert (IH' := IH (S i) (fun x Hx => Hpos x (or_intror Hx))).
  cbn [attempts paid_net fold_right snd fst]. unfold paid_net in IH'.
  destruct (send i); lia.
Qed.

(** X10. A distribution never sends more than it books: the wei of the
    transfers that went through are the net amounts its record lists, they
    sum to at most the record's [totalNet], which is at most [totalGross];
    the record's fee and net total add up to its gross total, and no
    transfer has a negative value. *)
Theorem distribute_never_overpays wallet id send uuid st st' d s' ts :
  distribute wallet id send uuid st = (st', Distribute200 d s', ts) ->
  sum_net (payouts d) = sent_total ts
  /\ sent_total ts <= totalNet d
  /\ totalNet d <= totalGross d
  /\ totalFee d + totalNet d = totalGross d
  /\ Forall (fun t => 0 <= transfer_value t) ts.
Proof.
  intros H.
  destruct (distribute_200_totals _ _ _ _ _ _ _ _ _ H) as (Hf & Hn & Hg).
  destruct (distribute_200 _ _ _ _ _ _ _ _ _ H)
    as (s & G & _ & _ & Hts & Hpay & Hgross & _).
  assert (Hpos : forall a, In a (pendingAllocations s st) -> 0 < amount a).
  { intros a Ha. apply pending_spec in Ha. tauto. }
  destruct (sent_total_attempts send 0 (pendingAllocations s st)) as [E1 E2].
  pose proof (paid_net_le_nets send 0 _ Hpos) as Hle.
  pose proof (nets_against_total _ Hpos) as Hnets.
  pose proof (netTotal_bounds _ Hg) as Hb.
  pose proof (netTotal_against_total _ Hg) as Htot.
  rewrite Hts, Hpay, E1, E2, Hn, Hf. rewrite Hgross in *.
  split; [reflexivity|]. split; [lia|]. split; [lia|].
  split; [unfold netTotal; lia|].
  apply Forall_forall. intros t Ht. apply in_map_iff in Ht.
  destruct Ht as ([a o] & <- & Hin). simpl.
  apply netAmount_nonneg, Hpos. eapply attempts_in; eauto.
Qed.

Lemma distribute_never_overpays_witness :
  sent_total [mkTransfer Scenario.applicant_address 3 (Some "0xhash")] <= 4.
Proof.
  exact (proj1 (proj2 (distribute_never_overpays true "ship-1" Scenario.paying
           "dist-1" Scenario.approved_four
           (fst (fst (distribute true "ship-1" Scenario.paying "dist-1"
                        Scenario.approved_four)))
           (mkDistribution "dist-1" "ship-1" (JStr "round") 4 0 4
              [mkPayout "alloc-1" (JStr "project")
                        Scenario.applicant_address 4 3 "0xhash"])
           (set_status Completed (set_distributed 4 Scenario.ship_four))
           [mkTransfer Scenario.applicant_address 3 (Some "0xhash")]
           eq_refl))).
Defined.

(** ** What the stored records refer to *)

Lemma apply_cases isAddress parseEther id body uuid st :
  fst (apply isAddress parseEther id body uuid st) = st
  \/ exists s c w,
       JsMap.get id (ships st) = Some s
       /\ fst (apply isAddress parseEther id body uuid st)
          = with_applications
              (JsMap.set uuid
                 (mkApplication uuid (ship_id s) (ship_name s) (toLowerCase c)
                                (ab_projectName body) w Pending 0)
                 (applications st)) st.
Proof.
  unfold apply.
  destruct (JsMap.get id (ships st)) as [s|]; [|now left].
  destruct (status s); try (now left).
  destruct (_ || _)%bool; [now left|].
  destruct (negb _); [now left|].
  destruct (parse_request parseEther _) as [w|]; [|now left].
  destruct (ab_applicant body) as [| | | |c]; simpl; try (now left).
  destruct (formatETH w); [|now left].
  right. exists s, c, w. auto.
Qed.

Lemma allocate_store_cases parseEther id body uuid st :
  fst (allocate parseEther id body uuid st) = st
  \/ (exists application,
        JsMap.get id (applications st) = Some application
        /\ fst (allocate parseEther id body uuid st)
           = with_applications
               (JsMap.set (app_id application)
                          (set_app_status Rejected application)
                          (applications st)) st)
  \/ (exists application ship w,
        JsMap.get id (applications st) = Some application
        /\ JsMap.get (app_shipId application) (ships st) = Some ship
        /\ fst (allocate parseEther id body uuid st)
           = mkStore
               (JsMap.set (ship_id ship)
                          (set_allocated (allocated ship + w) ship) (ships st))
               (JsMap.set (app_id application)
                          (set_app_allocation w
                             (set_app_status Approved application))
                          (applications st))
               (JsMap.set uuid
                          (mkAllocation uuid (ship_id ship) (app_id application)
                                        (app_projectName application)
                                        (app_applicant application) w false
                                        None)
                          (allocations st))
               (distributions st)).
Proof.
  unfold allocate.
  destruct (JsMap.get id (applications st)) as [application|] eqn:Happ;
    [|now left].
  destruct (JsMap.get (app_shipId application) (ships st)) as [ship|] eqn:Hship;
    [|now left].
  destruct (opt_toLowerCase (captain body)); [|now left].
  destruct (negb _); [now left|].
  destruct (strict_eq (approved body) (JBool false)).
  - right. left. exists application. auto.
  - destruct (parse_amount parseEther (body_amount body)) as [w|];
      [|now left].
    destruct (w >? budget ship - allocated ship);
      [format_cases; now left|].
    destruct (formatETH w); [|now left].
    right. right. exists application, ship, w.
    format_cases; auto.
Qed.

Lemma settle_more_fields l x :
  alloc_applicationId (settle l x) = alloc_applicationId x
  /\ alloc_applicant (settle l x) = alloc_applicant x
  /\ alloc_projectName (settle l x) = alloc_projectName x.
Proof.
  unfold settle. destruct (paid_hash l (alloc_id x)); repeat split.
Qed.

Lemma step_linked isAddress parseEther treasury wallet st st' :
  step isAddress parseEther treasury wallet st st' ->
  well_keyed st -> linked st -> linked st'.
Proof.
  intros Hstep (Ks & Ka & Kl) (La & Ll & Ld).
  destruct Hstep as [body uuid st | expired st | id txHash chain st
                    | id body uuid st | id body uuid st | id send uuid st].
  - destruct (createShip_cases isAddress body uuid st) as [-> | [c ->]];
      [repeat split; auto; apply Ll; auto|].
    unfold linked; simpl. split; [|split].
    + intros a Hin. apply in_keys_set_mono; auto.
    + intros al Hin. destruct (Ll al Hin).
      split; [apply in_keys_set_mono|]; auto.
    + intros d Hin. apply in_keys_set_mono; auto.
  - assert (Ek : JsMap.keys (ships (closeExpired expired st))
                 = JsMap.keys (ships st))
      by (unfold closeExpired, JsMap.keys; simpl; now rewrite map_map).
    unfold linked. rewrite Ek. simpl. split; [|split]; auto.
  - destruct (fund_cases treasury id txHash chain st)
      as [-> | (s & v & G & ->)]; [repeat split; auto; apply Ll; auto|].
    unfold linked; simpl. split; [|split].
    + intros a Hin. apply in_keys_set_mono; auto.
    + intros al Hin. destruct (Ll al Hin).
      split; [apply in_keys_set_mono|]; auto.
    + intros d Hin. apply in_keys_set_mono; auto.
  - destruct (apply_cases isAddress parseEther id body uuid st)
      as [-> | (s & c & w & G & ->)]; [repeat split; auto; apply Ll; auto|].
    unfold linked; simpl. split; [|split]; [| |assumption].
    + intros a Hin. apply in_values_set in Hin.
      destruct Hin as [-> | Hin]; [|auto]. simpl.
      rewrite (keyed_get _ _ _ _ Ks G). eapply get_some_keys; eauto.
    + intros al Hin. destruct (Ll al Hin).
      split; [|apply in_keys_set_mono]; auto.
  - destruct (allocate_store_cases parseEther id body uuid st)
      as [-> | [(application & Happ & ->)
               | (application & ship & w & Happ & Hship & ->)]];
      [repeat split; auto; apply Ll; auto | |].
    + unfold linked; simpl. split; [|split]; [| |assumption].
      * intros a Hin. apply in_values_set in Hin.
        destruct Hin as [-> | Hin]; [|auto]. simpl.
        apply La. eapply get_in_values; eauto.
      * intros al Hin. destruct (Ll al Hin).
        split; [|apply in_keys_set_mono]; auto.
    + assert (Hk : In (ship_id ship) (JsMap.keys (ships st))).
      { rewrite (keyed_get _ _ _ _ Ks Hship). eapply get_some_keys; eauto. }
      assert (Hi : In (app_id application) (JsMap.keys (applications st))).
      { rewrite (keyed_get _ _ _ _ Ka Happ). eapply get_some_keys; eauto. }
      unfold linked; simpl. split; [|split].
      * intros a Hin. apply in_keys_set_mono. apply in_values_set in Hin.
        destruct Hin as [-> | Hin]; [|auto]. simpl.
        apply La. eapply get_in_values; eauto.
      * intros al Hin. apply in_values_set in Hin.
        destruct Hin as [-> | Hin]; simpl.
        -- split; apply in_keys_set_mono; assumption.
        -- destruct (Ll al Hin). split; apply in_keys_set_mono; assumption.
      * intros d Hin. apply in_keys_set_mono; auto.
  - destruct (distribute_cases wallet id send uuid st)
      as [-> | (s & G & _ & Hships & Happs & Hal & Hdist)];
      [repeat split; auto; apply Ll; auto|].
    pose proof (pay_values send s st Kl) as Hv. rewrite <- Hal in Hv.
    assert (Hk : In (ship_id s) (JsMap.keys (ships st))).
    { rewrite (keyed_get _ _ _ _ Ks G). eapply get_some_keys; eauto. }
    unfold linked. rewrite Hships, Happs, Hv. split; [|split].
    + intros a Hin. apply in_keys_set_mono; auto.
    + intros al Hin. apply in_map_iff in Hin. destruct Hin as (x & <- & Hx).
      destruct (settle_fields (attempts send 0 (pendingAllocations s st)) x)
        as [-> _].
      destruct (settle_more_fields
                  (attempts send 0 (pendingAllocations s st)) x) as [-> _].
      destruct (Ll x Hx). split; [apply in_keys_set_mono|]; auto.
    + intros x Hin. apply in_keys_set_mono.
      destruct Hdist as [E | (d & Hd & E)]; rewrite E in Hin; [auto|].
      apply in_values_set in Hin.
      destruct Hin as [-> | Hin]; [now rewrite Hd | auto].
Qed.

(** X11. No reference dangles, whatever requests were served: every
    application names a stored ship, every allocation a stored ship and a
    stored application, and every distribution record a stored ship. *)
Theorem references_resolve isAddress parseEther treasury wallet st :
  reachable isAddress parseEther treasury wallet st ->
  (forall k a, JsMap.get k (applications st) = Some a ->
               JsMap.get (app_shipId a) (ships st) <> None)
  /\ (forall k al, JsMap.get k (allocations st) = Some al ->
                   JsMap.get (alloc_shipId al) (ships st) <> None
                   /\ JsMap.get (alloc_applicationId al) (applications st)
                      <> None)
  /\ (forall k d, JsMap.get k (distributions st) = Some d ->
                  JsMap.get (dist_shipId d) (ships st) <> None).
Proof.
  intros Hr.
  assert (L : linked st).
  { induction Hr as [|st st' Hr IH Hs].
    - unfold linked; simpl. split; [|split]; intros ? [].
    - eapply step_linked; eauto. eapply reachable_well_keyed; eauto. }
  destruct L as (La & Ll & Ld). split; [|split].
  - intros k a G C. apply get_none_keys in C. apply C, La.
    eapply get_in_values; eauto.
  - intros k al G. destruct (Ll al (get_in_values _ _ _ G)) as [H1 H2].
    split; intros C; apply get_none_keys in C; contradiction.
  - intros k d G C. apply get_none_keys in C. apply C, Ld.
    eapply get_in_values; eauto.
Qed.

Lemma references_resolve_witness :
  JsMap.get (alloc_shipId Scenario.allocation_once)
            (ships Scenario.approved_once) <> None.
Proof.
  exact (proj1 (proj1 (proj2 (references_resolve Ethers.isAddress
                  Ethers.parseEther Scenario.treasury true
                  Scenario.approved_once reachable_approved_once))
               "alloc-1" Scenario.allocation_once eq_refl)).
Defined.

Lemma step_applicants_normalized isAddress parseEther treasury wallet st st' :
  step isAddress parseEther treasury wallet st st' ->
  well_keyed st -> applicants_normalized st -> applicants_normalized st'.
Proof.
  intros Hstep (_ & _ & Kl) (Na & Nl).
  destruct Hstep as [body uuid st | expired st | id txHash chain st
                    | id body uuid st | id body uuid st | id send uuid st].
  - destruct (createShip_cases isAddress body uuid st) as [-> | [c ->]];
      split; assumption.
  - split; assumption.
  - destruct (fund_cases treasury id txHash chain st)
      as [-> | (s & v & G & ->)]; split; assumption.
  - destruct (apply_cases isAddress parseEther id body uuid st)
      as [-> | (s & c & w & G & ->)]; [split; assumption|].
    split; [|assumption]. simpl. intros a Hin. apply in_values_set in Hin.
    destruct Hin as [-> | Hin]; [apply toLowerCase_idem | auto].
  - destruct (allocate_store_cases parseEther id body uuid st)
      as [-> | [(application & Happ & ->)
               | (application & ship & w & Happ & Hship & ->)]];
      [split; assumption | |].
    + split; [|assumption]. simpl. intros a Hin. apply in_values_set in Hin.
      destruct Hin as [-> | Hin]; [|auto]. simpl.
      apply Na. eapply get_in_values; eauto.
    + split; simpl.
      * intros a Hin. apply in_values_set in Hin.
        destruct Hin as [-> | Hin]; [|auto]. simpl.
        apply Na. eapply get_in_values; eauto.
      * intros al Hin. apply in_values_set in Hin.
        destruct Hin as [-> | Hin]; [|auto]. simpl.
        apply Na. eapply get_in_values; eauto.
  - destruct (distribute_cases wallet id send uuid st)
      as [-> | (s & G & _ & _ & Happs & Hal & _)]; [split; assumption|].
    pose proof (pay_values send s st Kl) as Hv. rewrite <- Hal in Hv.
    split.
    + rewrite Happs. assumption.
    + rewrite Hv. intros al Hin. apply in_map_iff in Hin.
      destruct Hin as (x & <- & Hx).
      destruct (settle_more_fields
                  (attempts send 0 (pendingAllocations s st)) x)
        as (_ & -> & _).
      auto.
Qed.

(** X12. Every address the server stores is in lower case: the captain of a
    ship, the applicant of an application and the applicant of an
    allocation, to which the payout is sent. *)
Theorem stored_addresses_lower_case isAddress parseEther treasury wallet st :
  reachable isAddress parseEther treasury wallet st ->
  (forall k s, JsMap.get k (ships st) = Some s ->
               toLowerCase (ship_captain s) = ship_captain s)
  /\ (forall k a, JsMap.get k (applications st) = Some a ->
                  toLowerCase (app_applicant a) = app_applicant a)
  /\ (forall k al, JsMap.get k (allocations st) = Some al ->
                   toLowerCase (alloc_applicant al) = alloc_applicant al).
Proof.
  intros Hr.
  assert (N : applicants_normalized st).
  { induction Hr as [|st st' Hr IH Hs].
    - split; intros ? [].
    - eapply step_applicants_normalized; eauto.
      eapply reachable_well_keyed; eauto. }
  destruct N as (Na & Nl). split; [|split].
  - intros k s G.
    apply (reachable_captain_normalized _ _ _ _ _ Hr s).
    eapply get_in_values; eauto.
  - intros k a G. apply Na. eapply get_in_values; eauto.
  - intros k al G. apply Nl. eapply get_in_values; eauto.
Qed.

Lemma stored_addresses_lower_case_witness :
  toLowerCase (ship_captain Scenario.ship_once)
  = ship_captain Scenario.ship_once.
Proof.
  exact (proj1 (stored_addresses_lower_case Ethers.isAddress
                  Ethers.parseEther Scenario.treasury true
                  Scenario.approved_once reachable_approved_once)
               "ship-1" Scenario.ship_once eq_refl).
Defined.

(** ** [GET /stats] *)

Lemma fold_sum_shift {A : Type} (f : A -> Z) (l : list A) (acc : Z) :
  fold_left (fun sum x => sum + f x) l acc
  = acc + fold_left (fun sum x => sum + f x) l 0.
Proof.
  revert acc. induction l as [|a r IH]; intros acc; simpl; [lia|].
  rewrite (IH (acc + f a)), (IH (f a)). lia.
Qed.





Lemma fold_sum_nonneg (f : ship -> Z) (l : list ship) :
  (forall s, In s l -> 0 <= f s) ->
  0 <= fold_left (fun sum x => sum + f x) l 0.
Proof.
  induction l as [|a r IH]; intros H; simpl; [lia|].
  rewrite fold_sum_shift.
  assert (0 <= f a) by (apply H; now left).
  assert (0 <= fold_left (fun sum x => sum + f x) r 0)
    by (apply IH; intros; apply H; now right).
  lia.
Qed.

(** X14. The statistics never show a negative total, whatever requests were
    served, and never more open ships than ships or more approved
    applications than applications. *)
Theorem stats_are_sound isAddress parseEther treasury wallet st :
  reachable isAddress parseEther treasury wallet st ->
  0 <= totalBudget (stats st)
  /\ 0 <= totalDistributed (stats st)
  /\ (activeShips (stats st) <= stats_ships (stats st))%nat
  /\ (approvedApplications (stats st) <= stats_applications (stats st))%nat.
Proof.
  intros Hr. unfold stats; simpl. split; [|split; [|split]].
  - apply fold_sum_nonneg. apply (reachable_budget_nonneg _ _ _ _ _ Hr).
  - apply fold_sum_nonneg. intros s Hin.
    apply (reachable_budget_bounds _ _ _ _ _ Hr s Hin).
  - rewrite <- (length_map snd (ships st)). apply filter_length_le.
  - rewrite <- (length_map snd (applications st)). apply filter_length_le.
Qed.

Lemma stats_are_sound_witness :
  0 <= totalDistributed (stats Scenario.failed_twice).
Proof.
  refine (proj1 (proj2 (stats_are_sound Ethers.isAddress Ethers.parseEther
                          Scenario.treasury true Scenario.failed_twice _))).
  eapply reachable_step; [| apply step_distribute].
  eapply reachable_step; [| apply step_distribute].
  exact reachable_approved_once.
Defined.

(** ** The whitelist *)

Lemma refresh_data now data set c :
  entry_addresses data = Returned set ->
  refresh now (WhitelistData data) c = (mkCache (Some set) now, set).
Proof.
  intros H. unfold refresh. now rewrite H.
Qed.

Lemma fetch_expired now reply c :
  (whitelistCache c = None \/ WHITELIST_CACHE_TTL <= now - whitelistCacheTime c) ->
  fetchWhitelist now reply c = refresh now reply c.
Proof.
  unfold fetchWhitelist. intros [H|H].
  - now rewrite H.
  - destruct (whitelistCache c); [|reflexivity].
    destruct (now - whitelistCacheTime c <? WHITELIST_CACHE_TTL) eqn:E;
      [|reflexivity].
    apply Z.ltb_lt in E. lia.
Qed.

(** X15. A list fetched is served for five minutes and no longer: within
    300000 ms of the refresh every call answers the set fetched and leaves
    the cache alone, whatever the service would say by then; from 300000 ms
    on the next call asks the service again and, answered, replaces both
    the set and its time. *)
Theorem whitelist_cache_lifetime t0 data set c :
  (whitelistCache c = None \/ WHITELIST_CACHE_TTL <= t0 - whitelistCacheTime c) ->
  entry_addresses data = Returned set ->
  let c1 := fst (fetchWhitelist t0 (WhitelistData data) c) in
  WHITELIST_CACHE_TTL = 300000
  /\ fetchWhitelist t0 (WhitelistData data) c = (mkCache (Some set) t0, set)
  /\ (forall t1 reply, t1 - t0 < WHITELIST_CACHE_TTL ->
        fetchWhitelist t1 reply c1 = (c1, set))
  /\ (forall t1 data' set',
        WHITELIST_CACHE_TTL <= t1 - t0 ->
        entry_addresses data' = Returned set' ->
        fetchWhitelist t1 (WhitelistData data') c1
        = (mkCache (Some set') t1, set')).
Proof.
  intros Hc Hd c1.
  assert (E : fetchWhitelist t0 (WhitelistData data) c
              = (mkCache (Some set) t0, set)).
  { rewrite (fetch_expired _ _ _ Hc). now apply refresh_data. }
  subst c1. rewrite E. simpl. split; [reflexivity|]. split; [reflexivity|].
  split.
  - intros t1 reply Ht. unfold fetchWhitelist; simpl.
    destruct (t1 - t0 <? WHITELIST_CACHE_TTL) eqn:El; [reflexivity|].
    apply Z.ltb_ge in El. lia.
  - intros t1 data' set' Ht Hd'.
    rewrite fetch_expired by (right; simpl; lia).
    now apply refresh_data.
Qed.

Lemma whitelist_cache_lifetime_witness :
  fetchWhitelist 1299999 WhitelistFailed
    (fst (fetchWhitelist 1000000 (WhitelistData [EntryString "0xAB"])
            no_cache))
  = (fst (fetchWhitelist 1000000 (WhitelistData [EntryString "0xAB"])
            no_cache),
     ["0xab"]).
Proof.
  refine (proj1 (proj2 (proj2 (whitelist_cache_lifetime 1000000
            [EntryString "0xAB"] ["0xab"] no_cache _ eq_refl)))
            1299999 WhitelistFailed _).
  - left. reflexivity.
  - unfold WHITELIST_CACHE_TTL. lia.
Defined.

Lemma entry_addresses_bad data e :
  In e data -> entry_address e = Raised -> entry_addresses data = Raised.
Proof.
  induction data as [|x r IH]; simpl; [tauto|].
  intros [->|Hin] He.
  - now rewrite He.
  - destruct (entry_address x); [|reflexivity]. now rewrite (IH Hin He).
Qed.

Lemma has_in a set : has a set = true <-> In a set.
Proof.
  unfold has. rewrite existsb_exists. split.
  - intros (x & Hx & E). apply String.eqb_eq in E. now subst.
  - intros H. exists a. split; [assumption | apply String.eqb_refl].
Qed.

(** X16. When the list cannot be refreshed, because the service fails or one
    element of its answer is neither a string nor an object with a string
    address, the cache is left as it is, time included, and the set last
    fetched is served however old it is; with nothing fetched yet the set
    is empty, and then nobody is let through: the middleware answers 400,
    403 or raises, and never calls the handler. *)
Theorem whitelist_refresh_failure now reply c :
  (reply = WhitelistFailed
   \/ exists data e, reply = WhitelistData data /\ In e data
                     /\ entry_address e = Raised) ->
  (whitelistCache c = None \/ WHITELIST_CACHE_TTL <= now - whitelistCacheTime c) ->
  fetchWhitelist now reply c = (c, stale c)
  /\ (forall set, whitelistCache c = Some set ->
        snd (fetchWhitelist now reply c) = set)
  /\ (whitelistCache c = None ->
      forall addressField body,
        fst (requireWhitelist addressField body now reply c) = c
        /\ snd (requireWhitelist addressField body now reply c)
           <> WhitelistNext).
Proof.
  intros Hreply Hc.
  assert (E : fetchWhitelist now reply c = (c, stale c)).
  { rewrite (fetch_expired _ _ _ Hc). unfold refresh.
    destruct Hreply as [-> | (data & e & -> & Hin & He)]; [reflexivity|].
    now rewrite (entry_addresses_bad data e Hin He). }
  split; [assumption|]. split.
  - intros set Hs. rewrite E. unfold stale. now rewrite Hs.
  - intros Hn addressField body. unfold requireWhitelist.
    destruct (negb (truthy _)); [split; [reflexivity | discriminate]|].
    rewrite E. unfold stale. rewrite Hn.
    destruct (call_toLowerCase _); simpl;
      split; try reflexivity; discriminate.
Qed.

Lemma whitelist_refresh_failure_witness :
  snd (requireWhitelist "address"
         (fun f => if String.eqb f "address" then JStr "0xAB" else JUndefined)
         1000000 (WhitelistData [EntryString "0xAB"; EntryOther]) no_cache)
  <> WhitelistNext.
Proof.
  refine (proj2 (proj2 (proj2 (whitelist_refresh_failure 1000000
            (WhitelistData [EntryString "0xAB"; EntryOther]) no_cache _ _))
            eq_refl "address" _)).
  - right. exists [EntryString "0xAB"; EntryOther], EntryOther.
    split; [reflexivity|]. split; [right; now left | reflexivity].
  - left. reflexivity.
Defined.

Lemma js_or_truthy (a b : jsval) : truthy a = true -> js_or a b = a.
Proof.
  intros H. unfold js_or. now rewrite H.
Qed.

Lemma entry_addresses_strings (l : list string) :
  entry_addresses (map EntryString l) = Returned (map toLowerCase l).
Proof.
  induction l as [|a r IH]; simpl; [reflexivity|]. now rewrite IH.
Qed.

(** X17. Addresses made of ASCII characters are compared up to case.
    After a refresh that got a list of such strings, a request whose
    [address] is a non-empty string of ASCII characters is let through
    exactly when it equals one of the strings listed up to the case of the
    letters, and is answered 403 otherwise. *)
Theorem whitelist_admits_up_to_case now (l : list string) c body a :
  (whitelistCache c = None \/ WHITELIST_CACHE_TTL <= now - whitelistCacheTime c) ->
  Forall (fun e => is_ascii e = true) l ->
  body "address" = JStr a -> a <> "" -> is_ascii a = true ->
  let answer :=
    snd (requireWhitelist "address" body now
                          (WhitelistData (map EntryString l)) c) in
  (answer = WhitelistNext <-> exists e, In e l /\ eq_ignore_case e a)
  /\ (answer = WhitelistNext \/ answer = Whitelist403).
Proof.
  intros Hc _ Hb Ha _ answer. subst answer. unfold requireWhitelist.
  assert (Ht : truthy (JStr a) = true).
  { simpl. destruct (String.eqb a "") eqn:E; [|reflexivity].
    apply String.eqb_eq in E. contradiction. }
  rewrite Hb, !(js_or_truthy (JStr a)), Ht by exact Ht.
  rewrite (fetch_expired _ _ _ Hc).
  rewrite (refresh_data now _ _ c (entry_addresses_strings l)).
  cbn [negb call_toLowerCase].
  destruct (has (toLowerCase a) (map toLowerCase l)) eqn:Eh; simpl.
  - split; [|now left]. split; [|reflexivity]. intros _.
    apply has_in, in_map_iff in Eh. destruct Eh as (e & E & Hin).
    exists e. split; assumption.
  - split; [|now right]. split; [discriminate|].
    intros (e & Hin & E). exfalso.
    assert (has (toLowerCase a) (map toLowerCase l) = true).
    { apply has_in, in_map_iff. exists e. split; assumption. }
    congruence.
Qed.

Lemma whitelist_admits_up_to_case_witness :
  snd (requireWhitelist "address"
         (fun f => if String.eqb f "address" then JStr "0xab" else JUndefined)
         1000000 (WhitelistData (map EntryString ["0xAB"])) no_cache)
  = WhitelistNext.
Proof.
  refine (proj2 (proj1 (whitelist_admits_up_to_case 1000000 ["0xAB"] no_cache
            (fun f => if String.eqb f "address" then JStr "0xab"
                      else JUndefined)
            "0xab" _ _ eq_refl _ eq_refl)) _).
  - left. reflexivity.
  - repeat constructor.
  - discriminate.
  - exists "0xAB". split; [now left | reflexivity].
Defined.

(** ** The amounts the payout loop formats *)

Lemma allocate_allocations parseEther id body uuid st :
  allocations (fst (allocate parseEther id body uuid st)) = allocations st
  \/ exists al,
       formatETH (amount al) = Returned (amount al)
       /\ allocations (fst (allocate parseEther id body uuid st))
          = JsMap.set uuid al (allocations st).
Proof.
  unfold allocate.
  destruct (JsMap.get id (applications st)) as [application|]; [|now left].
  destruct (JsMap.get (app_shipId application) (ships st)) as [ship|];
    [|now left].
  destruct (opt_toLowerCase (captain body)); [|now left].
  destruct (negb _); [now left|].
  destruct (strict_eq (approved body) (JBool false)); [now left|].
  destruct (parse_amount parseEther (body_amount body)) as [w|]; [|now left].
  destruct (w >? budget ship - allocated ship); [format_cases; now left|].
  destruct (formatETH w) as [r|] eqn:Hf; [|now left].
  apply formatETH_returned in Hf. destruct Hf as [-> Hf].
  right. eexists. split; [|format_cases; reflexivity].
  now apply formatETH_range.
Qed.

Lemma step_amounts_format isAddress parseEther treasury wallet st st' :
  step isAddress parseEther treasury wallet st st' ->
  keyed alloc_id (allocations st) ->
  (forall a, In a (JsMap.values (allocations st)) ->
             formatETH (amount a) = Returned (amount a)) ->
  forall a, In a (JsMap.values (allocations st')) ->
            formatETH (amount a) = Returned (amount a).
Proof.
  intros Hstep Kl H.
  destruct Hstep as [body uuid st | expired st | id txHash chain st
                    | id body uuid st | id body uuid st | id send uuid st].
  - destruct (createShip_cases isAddress body uuid st) as [-> | [c ->]];
      exact H.
  - exact H.
  - destruct (fund_cases treasury id txHash chain st)
      as [-> | (s & v & _ & ->)]; exact H.
  - destruct (apply_cases isAddress parseEther id body uuid st)
      as [-> | (s & c & w & _ & ->)]; exact H.
  - destruct (allocate_allocations parseEther id body uuid st)
      as [-> | (al & Hal & ->)]; [exact H|].
    intros a Hin. apply in_values_set in Hin.
    destruct Hin as [-> | Hin]; auto.
  - destruct (distribute_cases wallet id send uuid st)
      as [-> | (s & _ & _ & _ & _ & Hal & _)]; [exact H|].
    rewrite Hal, (pay_values send s st Kl).
    intros a Hin. apply in_map_iff in Hin. destruct Hin as (x & <- & Hx).
    destruct (settle_fields (attempts send 0 (pendingAllocations s st)) x)
      as [_ ->].
    auto.
Qed.

(** X19. Formatting never raises inside the payout loop: whatever requests
    were served, the amount of every allocation selected for payment, and
    the 95% of it that is sent, are amounts [formatETH] renders, the amount
    having been formatted when the allocation was made. *)
Theorem payout_amounts_format isAddress parseEther treasury wallet st :
  reachable isAddress parseEther treasury wallet st ->
  forall s a,
    In a (pendingAllocations s st) ->
    formatETH (amount a) = Returned (amount a)
    /\ formatETH (netAmount a) = Returned (netAmount a).
Proof.
  intros Hr.
  assert (H : forall a, In a (JsMap.values (allocations st)) ->
                        formatETH (amount a) = Returned (amount a)).
  { induction Hr as [|st st' Hr IH Hs]; [intros a []|].
    eapply step_amounts_format; eauto.
    apply (reachable_well_keyed _ _ _ _ _ Hr). }
  intros s a Ha. apply pending_spec in Ha.
  destruct Ha as (Hin & _ & _ & Hpos).
  specialize (H a Hin). split; [assumption|].
  apply formatETH_returned in H. destruct H as [_ [_ Hu]].
  apply formatETH_range.
  assert (- 2 ^ 511 <= 0) by (apply Z.opp_nonpos_nonneg, Z.pow_nonneg; lia).
  assert (0 <= netAmount a <= amount a).
  { unfold netAmount. rewrite Z.quot_div_nonneg by lia. split.
    - apply Z.div_pos; lia.
    - apply Z.div_le_upper_bound; lia. }
  lia.
Qed.

Lemma payout_amounts_format_witness :
  formatETH (amount Scenario.allocation_once)
  = Returned (amount Scenario.allocation_once)
  /\ formatETH (netAmount Scenario.allocation_once)
     = Returned (netAmount Scenario.allocation_once).
Proof.
  refine (payout_amounts_format Ethers.isAddress Ethers.parseEther
            Scenario.treasury true Scenario.approved_once
            reachable_approved_once Scenario.ship_once
            Scenario.allocation_once _).
  vm_compute. now left.
Defined.

Lemma reachable_linked isAddress parseEther treasury wallet st :
  reachable isAddress parseEther treasury wallet st -> linked st.
Proof.
  induction 1 as [|st st' Hr IH Hs].
  - unfold linked; simpl. split; [|split]; intros ? [].
  - eapply step_linked; eauto. eapply reachable_well_keyed; eauto.
Qed.

(** X18. The answer 404 'Ship not found' of a decision is never given: in
    every store the server can reach the ship of a stored application is
    stored too, so that a decision on an unknown application is answered 404
    'Application not found' and any other one gets past the ship lookup. *)
Theorem allocate_always_finds_ship
  isAddress parseEther treasury wallet st id body uuid :
  reachable isAddress parseEther treasury wallet st ->
  snd (allocate parseEther id body uuid st) <> Allocate404_ship
  /\ (snd (allocate parseEther id body uuid st) = Allocate404_application
      <-> JsMap.get id (applications st) = None).
Proof.
  intros Hr. destruct (reachable_linked _ _ _ _ _ Hr) as (La & _ & _).
  unfold allocate.
  destruct (JsMap.get id (applications st)) as [application|] eqn:Happ.
  - destruct (JsMap.get (app_shipId application) (ships st)) as [ship|] eqn:Hs.
    + split; [|split; [|discriminate]];
        handler_cases; simpl; discriminate.
    + exfalso. apply get_none_keys in Hs. apply Hs, La.
      eapply get_in_values; eauto.
  - split; [discriminate | split; reflexivity].
Qed.

Lemma allocate_always_finds_ship_witness :
  snd (allocate Ethers.parseEther "app-9"
         (Scenario.decision (JStr "1") (JBool true)) "alloc-2"
         Scenario.approved_once)
  = Allocate404_application.
Proof.
  exact (proj2 (proj2 (allocate_always_finds_ship Ethers.isAddress
                         Ethers.parseEther Scenario.treasury true
                         Scenario.approved_once "app-9"
                         (Scenario.decision (JStr "1") (JBool true))
                         "alloc-2" reachable_approved_once))
               eq_refl).
Defined.
